(** * Reconciliation engine of the aiorg CLI ([src/lib/apply.ts])

    A shallow embedding of [applyFileCategories] and of the JSON deep merge
    it delegates to, together with the properties its specification states;
    and, with further properties of the engine, of what stands around it:
    the git backup of the same file, the manifest as [detect.ts] reads it,
    the engine's predecessor, and the project names of [project.ts]. *)

From Stdlib Require Import ZArith String Ascii List DecimalString DecimalNat.
From stdpp Require Import base option list gmap strings.

#[local] Set Warnings "-clear-no-such-hyp".

(** ** JSON documents and the deep merge

    [fs.readJson] yields the values of [JSON.parse]: null, booleans, numbers,
    strings, arrays and objects.  An object keeps its properties in the order
    in which they were added, which is also the order in which [writeJson]
    emits them, so it is an association list (that JavaScript lists keys
    that look like indices first is not modelled); the keys of a parsed
    object are pairwise distinct ([uniqueKeys]).  Numbers are opaque to the
    merge and carried as integers.

    The merge is [merge] of lodash, which the engine calls as
    [merge({}, incoming, existing)]; it is embedded from lodash's [baseMerge],
    [baseMergeDeep] and [assignMergeValue], on JSON values. *)

Module Json.

Local Unset Elimination Schemes.

Inductive json : Type :=
| JNull
| JBool (b : bool)
| JNum (n : Z)
| JStr (s : string)
| JArr (items : list json)
| JObj (props : list (string * json)).

Local Set Elimination Schemes.

(** [object[key]] on a plain object: the value of the property, if any. *)
Fixpoint getProp (props : list (string * json)) (key : string) : option json :=
  match props with
  | [] => None
  | (k, v) :: rest => if String.eqb k key then Some v else getProp rest key
  end.

(** [object[key] = value]: an existing property keeps its position, a new
    one goes last. *)
Fixpoint setProp (props : list (string * json)) (key : string) (value : json)
  : list (string * json) :=
  match props with
  | [] => [(key, value)]
  | (k, v) :: rest =>
      if String.eqb k key then (k, value) :: rest
      else (k, v) :: setProp rest key value
  end.

(** The loop of lodash's [baseMerge] over a source with string keys and an
    object as target: every source property is merged into the target's
    property of the same key by [f] (the work of [baseMergeDeep] and
    [assignMergeValue]). *)
Definition mergeProps (f : option json -> json -> json)
    (source : list (string * json)) (object : list (string * json))
  : list (string * json) :=
  fold_left (fun acc kv => setProp acc (fst kv) (f (getProp acc (fst kv)) (snd kv)))
            source object.

(** The same loop with arrays on both sides: index [i] of the source is
    merged into index [i] of the target; target items beyond the source's
    length stay. *)
Fixpoint mergeItems (f : option json -> json -> json)
    (object source : list json) : list json :=
  match source with
  | [] => object
  | s :: source' =>
      match object with
      | [] => f None s :: mergeItems f [] source'
      | o :: object' => f (Some o) s :: mergeItems f object' source'
      end
  end.

(** The value a key holds after lodash's [baseMerge] has visited it:
    [objValue] is what the target held ([None] for [undefined]), [srcValue]
    what the source holds.
    - a source array is merged index by index into the target's array, or
      into a fresh [[]] when the target holds anything else;
    - a source object is merged key by key into the target's object; a
      target array is kept as the receiver, and the properties it receives
      are not array items, so the document [writeJson] emits holds the array
      alone; any other target value is replaced by a fresh object;
    - every other source value is assigned as it is.
    Property names are taken to be ordinary ones: what JavaScript does with
    a property named [__proto__], with a [length] property, and with an
    index given to an array as a property, is outside this model. *)
Fixpoint mergeValue (objValue : option json) (srcValue : json) {struct srcValue}
  : json :=
  match srcValue with
  | JArr source =>
      let newValue := match objValue with Some (JArr items) => items | _ => [] end in
      JArr (mergeItems mergeValue newValue source)
  | JObj source =>
      match objValue with
      | Some (JObj props) => JObj (mergeProps mergeValue source props)
      | Some (JArr items) => JArr items
      | _ => JObj (mergeProps mergeValue source [])
      end
  | _ => srcValue
  end.

(** The key of index [i], as JavaScript spells it. *)
Definition indexKey (i : nat) : string :=
  NilEmpty.string_of_uint (Nat.to_uint i).

Fixpoint indexed {A : Type} (inj : A -> json) (i : nat) (l : list A)
  : list (string * json) :=
  match l with
  | [] => []
  | x :: l' => (indexKey i, inj x) :: indexed inj (S i) l'
  end.

(** lodash's [keysIn] paired with the values: the enumerable string-keyed
    properties of a source.  An array has its indices, a string its
    characters, the other primitives have none. *)
Definition keysIn (source : json) : list (string * json) :=
  match source with
  | JObj props => props
  | JArr items => indexed (fun x => x) 0 items
  | JStr s => indexed (fun c => JStr (String c EmptyString)) 0 (list_ascii_of_string s)
  | _ => []
  end.

(** [baseMerge(object, source)] with a plain object as target. *)
Definition baseMerge (object : list (string * json)) (source : json)
  : list (string * json) :=
  mergeProps mergeValue (keysIn source) object.

(** lodash's [merge(object, ...sources)]: the sources are applied from left
    to right. *)
Definition merge (object : list (string * json)) (sources : list json)
  : list (string * json) :=
  fold_left baseMerge sources object.

(** The merge of the engine, [merge({}, base, overlay)]. *)
Definition deepMerge (base overlay : json) : json :=
  JObj (merge [] [base; overlay]).







(** *** Induction over documents *)

Section JsonInd.
Variable P : json -> Prop.
Hypothesis Hnull : P JNull.
Hypothesis Hbool : forall b, P (JBool b).
Hypothesis Hnum : forall n, P (JNum n).
Hypothesis Hstr : forall s, P (JStr s).
Hypothesis Harr : forall items, Forall P items -> P (JArr items).
Hypothesis Hobj : forall props, Forall (fun kv => P (snd kv)) props -> P (JObj props).

End JsonInd.

End Json.

Import Json.

(** ** The reconciliation engine

    [applyFileCategories(sourceDir, destDir, versionJson)] is asynchronous
    code that awaits one file-system call after the other, so it is embedded
    as a sequential program in a state and exception monad.  The state holds
    what the function mutates: the two directory trees, the [result]
    accumulator and the [processedFiles] set. *)

Module Engine.

(** The manifest ([VersionJson] of [detect.ts]), without the optional
    fields the engine does not read; every list is optional. *)
Record FileCategories : Type := {
  alwaysReplace : option (list string);
  neverTouch : option (list string);
  mergeIfChanged : option (list string);
  addOnly : option (list string)
}.

Record VersionJson : Type := {
  version : string;
  packageName : string;
  fileCategories : option FileCategories
}.

Record ApplyResult : Type := {
  replaced : list string;
  merged : list string;
  added : list string;
  skipped : list string;
  errors : list string
}.

(** What a [catch] clause receives: an [Error] object with its message, or
    any other thrown value, given by its rendering as a string. *)
Inductive thrown : Type :=
| ErrorObject (message : string)
| OtherValue (rendered : string).

Definition getErrorMessage (err : thrown) : string :=
  match err with
  | ErrorObject message => message
  | OtherValue rendered => rendered
  end.

(** *** The file system

    Files are addressed by their path relative to [sourceDir] and to
    [destDir]; the two trees are disjoint.  Every call that can fail is
    written to [io_log] with its outcome. *)

Inductive io_op : Type :=
| OpGlob | OpEnsureDir | OpCopy | OpReadSource | OpReadDest | OpWrite.

#[global] Instance io_op_eq_dec : EqDecision io_op.
Proof. solve_decision. Defined.

Record io_event : Type := {
  ev_op : io_op;
  ev_path : string;
  ev_failure : option thrown
}.

Record World : Type := {
  source_tree : gmap string string;
  dest_tree : gmap string string;
  io_log : list io_event
}.

(** What the engine does not decide: the two matching libraries, the JSON
    codec, and which file-system calls fail.  The expansion of a pattern
    depends on the pattern alone, since the engine writes nothing below
    [sourceDir]; the faults may depend on the state of the world, log
    included.  A failing [copy] or write says what it leaves at the
    destination path ([None]: no file), since neither replaces a file in
    one atomic step. *)
Record Env : Type := {
  minimatch : string -> string -> bool;
  glob : string -> thrown + list string;
  parseJson : string -> thrown + json;
  stringifyJson : json -> string;
  ensureDir_fault : World -> string -> option thrown;
  read_fault : World -> io_op -> string -> option thrown;
  copy_fault : World -> string -> option (thrown * option string);
  write_fault : World -> string -> string -> option (thrown * option string)
}.

Record State : Type := {
  world : World;
  result : ApplyResult;
  processedFiles : gset string
}.

(** *** The monad *)

Definition M (A : Type) : Type := State -> (thrown + A) * State.

Definition ret {A} (a : A) : M A := fun st => (inr a, st).

Definition bind {A B} (m : M A) (k : A -> M B) : M B :=
  fun st =>
    match m st with
    | (inr a, st') => k a st'
    | (inl err, st') => (inl err, st')
    end.

(** [try { body } catch (err) { handler }]. *)
Definition try_catch {A} (body : M A) (handler : thrown -> M A) : M A :=
  fun st =>
    match body st with
    | (inl err, st') => handler err st'
    | r => r
    end.

Declare Scope engine_scope.
Delimit Scope engine_scope with engine.
Notation "x <- m ;; k" := (bind m (fun x => k))
  (at level 100, m at next level, right associativity) : engine_scope.
Notation "m ;; k" := (bind m (fun _ => k))
  (at level 100, right associativity) : engine_scope.
Local Open Scope engine_scope.

(** [for (const x of xs) { body }]. *)
Fixpoint for_of {A} (xs : list A) (body : A -> M unit) : M unit :=
  match xs with
  | [] => ret tt
  | x :: xs' => body x ;; for_of xs' body
  end.

(** *** State updates *)

Definition set_world (w : World) (st : State) : State :=
  {| world := w; result := result st; processedFiles := processedFiles st |}.

Definition set_result (r : ApplyResult) (st : State) : State :=
  {| world := world st; result := r; processedFiles := processedFiles st |}.

Definition logged (ev : io_event) (w : World) : World :=
  {| source_tree := source_tree w; dest_tree := dest_tree w;
     io_log := io_log w ++ [ev] |}.

Definition set_dest (file : string) (content : option string) (w : World) : World :=
  {| source_tree := source_tree w;
     dest_tree := partial_alter (fun _ => content) file (dest_tree w);
     io_log := io_log w |}.

Definition push_replaced (file : string) : M unit := fun st =>
  let r := result st in
  (inr tt, set_result {| replaced := replaced r ++ [file]; merged := merged r;
                         added := added r; skipped := skipped r;
                         errors := errors r |} st).

Definition push_merged (file : string) : M unit := fun st =>
  let r := result st in
  (inr tt, set_result {| replaced := replaced r; merged := merged r ++ [file];
                         added := added r; skipped := skipped r;
                         errors := errors r |} st).

Definition push_added (file : string) : M unit := fun st =>
  let r := result st in
  (inr tt, set_result {| replaced := replaced r; merged := merged r;
                         added := added r ++ [file]; skipped := skipped r;
                         errors := errors r |} st).

Definition push_skipped (file : string) : M unit := fun st =>
  let r := result st in
  (inr tt, set_result {| replaced := replaced r; merged := merged r;
                         added := added r; skipped := skipped r ++ [file];
                         errors := errors r |} st).

Definition push_error (message : string) : M unit := fun st =>
  let r := result st in
  (inr tt, set_result {| replaced := replaced r; merged := merged r;
                         added := added r; skipped := skipped r;
                         errors := errors r ++ [message] |} st).

Definition processedFiles_has (file : string) : M bool := fun st =>
  (inr (bool_decide (file ∈ processedFiles st)), st).

Definition processedFiles_add (file : string) : M unit := fun st =>
  (inr tt, {| world := world st; result := result st;
              processedFiles := {[file]} ∪ processedFiles st |}).

(** [str.endsWith(suffix)]. *)
Definition endsWith (str suffix : string) : bool :=
  let n := String.length str in
  let m := String.length suffix in
  (m <=? n)%nat && String.eqb (String.substring (n - m) m str) suffix.

Definition noSuchFile : thrown := ErrorObject "ENOENT: no such file or directory".

(** The state in which [applyFileCategories] starts: an empty [result] and
    an empty [processedFiles]. *)
Definition emptyResult : ApplyResult :=
  {| replaced := []; merged := []; added := []; skipped := []; errors := [] |}.

Definition initial (w : World) : State :=
  {| world := w; result := emptyResult; processedFiles := ∅ |}.

Section Calls.
Variable env : Env.

(** [matchesPattern(filePath, pattern)]. *)
Definition matchesPattern (filePath pattern : string) : bool :=
  minimatch env filePath pattern.

(** [glob(pattern, { cwd: sourceDir, dot: true, nodir: true })]. *)
Definition globFiles (pattern : string) : M (list string) := fun st =>
  match glob env pattern with
  | inr files =>
      (inr files, set_world (logged {| ev_op := OpGlob; ev_path := pattern;
                                       ev_failure := None |} (world st)) st)
  | inl err =>
      (inl err, set_world (logged {| ev_op := OpGlob; ev_path := pattern;
                                     ev_failure := Some err |} (world st)) st)
  end.

(** [fs.pathExists(destPath)]; it never rejects. *)
Definition pathExists (file : string) : M bool := fun st =>
  (inr (bool_decide (is_Some (dest_tree (world st) !! file))), st).

(** [fs.ensureDir(path.dirname(destPath))]. *)
Definition ensureDir (file : string) : M unit := fun st =>
  let w := world st in
  match ensureDir_fault env w file with
  | Some err =>
      (inl err, set_world (logged {| ev_op := OpEnsureDir; ev_path := file;
                                     ev_failure := Some err |} w) st)
  | None =>
      (inr tt, set_world (logged {| ev_op := OpEnsureDir; ev_path := file;
                                    ev_failure := None |} w) st)
  end.

(** [fs.copy(srcPath, destPath)], which overwrites by default. *)
Definition copy (file : string) : M unit := fun st =>
  let w := world st in
  match copy_fault env w file with
  | Some (err, remains) =>
      (inl err, set_world (logged {| ev_op := OpCopy; ev_path := file;
                                     ev_failure := Some err |}
                             (set_dest file remains w)) st)
  | None =>
      match source_tree w !! file with
      | Some content =>
          (inr tt, set_world (logged {| ev_op := OpCopy; ev_path := file;
                                        ev_failure := None |}
                                (set_dest file (Some content) w)) st)
      | None =>
          (inl noSuchFile,
           set_world (logged {| ev_op := OpCopy; ev_path := file;
                                ev_failure := Some noSuchFile |} w) st)
      end
  end.

(** [fs.readJson(path)]: read the file, then [JSON.parse] it. *)
Definition readJson (side : io_op) (tree : World -> gmap string string)
    (file : string) : M json := fun st =>
  let w := world st in
  let outcome :=
    match read_fault env w side file with
    | Some err => inl err
    | None =>
        match tree w !! file with
        | Some content => parseJson env content
        | None => inl noSuchFile
        end
    end in
  match outcome with
  | inl err =>
      (inl err, set_world (logged {| ev_op := side; ev_path := file;
                                     ev_failure := Some err |} w) st)
  | inr document =>
      (inr document, set_world (logged {| ev_op := side; ev_path := file;
                                          ev_failure := None |} w) st)
  end.

(** [fs.writeJson(destPath, document, { spaces: 2 })]. *)
Definition writeJson (file : string) (document : json) : M unit := fun st =>
  let w := world st in
  let data := stringifyJson env document in
  match write_fault env w file data with
  | Some (err, remains) =>
      (inl err, set_world (logged {| ev_op := OpWrite; ev_path := file;
                                     ev_failure := Some err |}
                             (set_dest file remains w)) st)
  | None =>
      (inr tt, set_world (logged {| ev_op := OpWrite; ev_path := file;
                                    ev_failure := None |}
                            (set_dest file (Some data) w)) st)
  end.

(** *** The three category actions: the bodies of the inner [try] blocks *)

Definition replaceAction (file : string) : M unit :=
  ensureDir file ;;
  copy file ;;
  push_replaced file ;;
  processedFiles_add file.

Definition mergeAction (file : string) : M unit :=
  destExists <- pathExists file ;;
  (if destExists && endsWith file ".json" then
     incoming <- readJson OpReadSource source_tree file ;;
     existing <- readJson OpReadDest dest_tree file ;;
     let merged := deepMerge incoming existing in
     writeJson file merged ;;
     push_merged file
   else if destExists then
     push_skipped file
   else
     ensureDir file ;;
     copy file ;;
     push_replaced file) ;;
  processedFiles_add file.

Definition addAction (file : string) : M unit :=
  destExists <- pathExists file ;;
  (if negb destExists then
     ensureDir file ;;
     copy file ;;
     push_added file
   else
     push_skipped file) ;;
  processedFiles_add file.

(** *** The loops

    The three loops of [applyFileCategories] differ in the action and in
    the two message prefixes only. *)

Definition processFile (fileTag : string) (action : string -> M unit)
    (neverTouchPatterns : list string) (file : string) : M unit :=
  has <- processedFiles_has file ;;
  if has then ret tt
  else
    let shouldSkip := existsb (matchesPattern file) neverTouchPatterns in
    if shouldSkip then
      push_skipped file ;;
      processedFiles_add file
    else
      try_catch (action file)
        (fun err => push_error (fileTag +:+ file +:+ ": " +:+ getErrorMessage err)).

Definition processPattern (patternTag fileTag : string)
    (action : string -> M unit) (neverTouchPatterns : list string)
    (pattern : string) : M unit :=
  try_catch
    (files <- globFiles pattern ;;
     for_of files (processFile fileTag action neverTouchPatterns))
    (fun err => push_error (patternTag +:+ pattern +:+ ": " +:+ getErrorMessage err)).

Definition processPatterns (patternTag fileTag : string)
    (action : string -> M unit) (neverTouchPatterns patterns : list string)
  : M unit :=
  for_of patterns (processPattern patternTag fileTag action neverTouchPatterns).

Definition processAlwaysReplace (nt patterns : list string) : M unit :=
  processPatterns "Failed to process pattern " "Failed to copy "
    replaceAction nt patterns.

Definition processMergeIfChanged (nt patterns : list string) : M unit :=
  processPatterns "Failed to process merge pattern " "Failed to merge "
    mergeAction nt patterns.

Definition processAddOnly (nt patterns : list string) : M unit :=
  processPatterns "Failed to process addOnly pattern " "Failed to add "
    addAction nt patterns.

(** [versionJson.fileCategories?.list ?? []]. *)
Definition category (select : FileCategories -> option (list string))
    (versionJson : VersionJson) : list string :=
  default [] (fileCategories versionJson ≫= select).

(** The body of [applyFileCategories] after its declarations: the three
    loops, then [return result]. *)
Definition categoryLoops (versionJson : VersionJson) : M ApplyResult :=
  let alwaysReplace := category alwaysReplace versionJson in
  let neverTouch := category neverTouch versionJson in
  let mergeIfChanged := category mergeIfChanged versionJson in
  let addOnly := category addOnly versionJson in
  processAlwaysReplace neverTouch alwaysReplace ;;
  processMergeIfChanged neverTouch mergeIfChanged ;;
  processAddOnly neverTouch addOnly ;;
  (fun st => (inr (result st), st)).

(** The call as its caller sees it: it starts from a fresh [result] and a
    fresh [processedFiles], and returns or throws, leaving a changed world. *)
Definition applyFileCategories (versionJson : VersionJson) (w : World)
  : (thrown + ApplyResult) * World :=
  let '(r, st) := categoryLoops versionJson (initial w) in
  (r, world st).
End Calls.

(** The call returned, and what it returned satisfies [P]. *)
Definition returned {A} (outcome : thrown + A) (P : A -> Prop) : Prop :=
  match outcome with
  | inr a => P a
  | inl _ => False
  end.

(** *** Vocabulary of the properties *)

(** The four outcome lists of a result. *)
Inductive slot : Type := InReplaced | InMerged | InAdded | InSkipped.

Definition record (where_ : slot) (file : string) (r : ApplyResult) : ApplyResult :=
  match where_ with
  | InReplaced => {| replaced := replaced r ++ [file]; merged := merged r;
                     added := added r; skipped := skipped r; errors := errors r |}
  | InMerged => {| replaced := replaced r; merged := merged r ++ [file];
                   added := added r; skipped := skipped r; errors := errors r |}
  | InAdded => {| replaced := replaced r; merged := merged r;
                  added := added r ++ [file]; skipped := skipped r; errors := errors r |}
  | InSkipped => {| replaced := replaced r; merged := merged r;
                    added := added r; skipped := skipped r ++ [file]; errors := errors r |}
  end.

Definition with_error (message : string) (r : ApplyResult) : ApplyResult :=
  {| replaced := replaced r; merged := merged r; added := added r;
     skipped := skipped r; errors := errors r ++ [message] |}.

(** All paths a result has an outcome for. *)
Definition recorded (r : ApplyResult) : list string :=
  replaced r ++ merged r ++ added r ++ skipped r.

(** How often the path has an outcome. *)
Definition occurrences (file : string) (r : ApplyResult) : nat :=
  count_occ string_dec (recorded r) file.

(** The file matches at least one [neverTouch] pattern. *)
Definition isProtected (env : Env) (neverTouchPatterns : list string)
    (file : string) : bool :=
  existsb (matchesPattern env file) neverTouchPatterns.

(** The calls of a log that failed. *)
Definition failures (log : list io_event) : list io_event :=
  filter (fun ev => is_Some (ev_failure ev)) log.

(** The event is a file-system call on the file (not a pattern expansion). *)
Definition concerns (file : string) (ev : io_event) : Prop :=
  ev_op ev <> OpGlob /\ ev_path ev = file.


(** The message names the subject of the failed call (the pattern or the
    file path) and its cause. *)
Definition reports (ev : io_event) (message : string) : Prop :=
  exists prefix err,
    ev_failure ev = Some err
    /\ message = prefix +:+ ev_path ev +:+ ": " +:+ getErrorMessage err.

(** The calls [evs] lead from [w] to [w'], are all about [file], and leave
    every other destination path and the source tree alone. *)
Definition file_calls (file : string) (w w' : World) (evs : list io_event) : Prop :=
  source_tree w' = source_tree w
  /\ (forall g, g <> file -> dest_tree w' !! g = dest_tree w !! g)
  /\ io_log w' = io_log w ++ evs
  /\ Forall (concerns file) evs.

(** What one visit of a file by the loops does to the state: a protected
    file is skipped, a file gets its outcome, or the action on a file fails
    and is reported. *)
Inductive file_transition (protected : string -> bool) (file : string)
    (st st' : State) : Prop :=
| ft_protect :
    file ∉ processedFiles st ->
    protected file = true ->
    world st' = world st ->
    processedFiles st' = {[file]} ∪ processedFiles st ->
    result st' = record InSkipped file (result st) ->
    file_transition protected file st st'
| ft_outcome where_ evs :
    file ∉ processedFiles st ->
    protected file = false ->
    file_calls file (world st) (world st') evs ->
    failures evs = [] ->
    processedFiles st' = {[file]} ∪ processedFiles st ->
    result st' = record where_ file (result st) ->
    file_transition protected file st st'
| ft_failure evs ev message :
    file ∉ processedFiles st ->
    protected file = false ->
    file_calls file (world st) (world st') evs ->
    failures evs = [ev] ->
    reports ev message ->
    processedFiles st' = processedFiles st ->
    result st' = with_error message (result st) ->
    file_transition protected file st st'.

(** One iteration of the inner loop: a claimed file is passed over, any
    other file makes a [file_transition]. *)
Definition visit (protected : string -> bool) (file : string)
    (st st' : State) : Prop :=
  (file ∈ processedFiles st /\ st' = st) \/ file_transition protected file st st'.

(** The inner loop over the files of an expansion. *)
Inductive visits (protected : string -> bool)
  : list string -> State -> State -> Prop :=
| visits_nil st : visits protected [] st st
| visits_cons file files st st1 st2 :
    visit protected file st st1 ->
    visits protected files st1 st2 ->
    visits protected (file :: files) st st2.

Definition globEvent (pattern : string) (failure : option thrown) : io_event :=
  {| ev_op := OpGlob; ev_path := pattern; ev_failure := failure |}.

(** One iteration of the outer loop: the expansion fails and is reported,
    or its files are visited. *)
Inductive expansion (env : Env) (protected : string -> bool) (pattern : string)
    (st st' : State) : Prop :=
| expansion_failed err message :
    glob env pattern = inl err ->
    reports (globEvent pattern (Some err)) message ->
    st' = set_result (with_error message (result st))
            (set_world (logged (globEvent pattern (Some err)) (world st)) st) ->
    expansion env protected pattern st st'
| expansion_done files :
    glob env pattern = inr files ->
    visits protected files
      (set_world (logged (globEvent pattern None) (world st)) st) st' ->
    expansion env protected pattern st st'.

(** The outer loop over the patterns of a category. *)
Inductive expansions (env : Env) (protected : string -> bool)
  : list string -> State -> State -> Prop :=
| expansions_nil st : expansions env protected [] st st
| expansions_cons pattern patterns st st1 st2 :
    expansion env protected pattern st st1 ->
    expansions env protected patterns st1 st2 ->
    expansions env protected (pattern :: patterns) st st2.

(** The patterns a log has expansions of, in order. *)
Definition expandedPatterns (log : list io_event) : list string :=
  map ev_path (filter (fun ev => ev_op ev = OpGlob) log).

(** Between [st] and [st'] the file was dealt with: it is claimed, or a
    call on it failed. *)
Definition settled (file : string) (st st' : State) : Prop :=
  file ∈ processedFiles st'
  \/ exists evs ev,
       io_log (world st') = io_log (world st) ++ evs
       /\ ev ∈ failures evs /\ concerns file ev.

(** The state a computation leaves. *)
Definition exec {A} (m : M A) (st : State) : State := snd (m st).

(** What any stretch of the loops does, from [st] to [st']: calls [evs] are
    logged and the failed ones reported in [errs], one message each; the
    outcome lists grow by [nr], [nm], [na] and [ns], which hold exactly the
    newly claimed files, once each, and protected files in [ns] only; and
    the engine keeps its hands off every file that is protected or was
    claimed before. *)
Inductive progress (protected : string -> bool) (st st' : State) : Prop :=
| Progress (evs : list io_event) (errs nr nm na ns : list string) :
    source_tree (world st') = source_tree (world st) ->
    processedFiles st ⊆ processedFiles st' ->
    io_log (world st') = io_log (world st) ++ evs ->
    errors (result st') = errors (result st) ++ errs ->
    Forall2 reports (failures evs) errs ->
    replaced (result st') = replaced (result st) ++ nr ->
    merged (result st') = merged (result st) ++ nm ->
    added (result st') = added (result st) ++ na ->
    skipped (result st') = skipped (result st) ++ ns ->
    (forall f, count_occ string_dec (nr ++ nm ++ na ++ ns) f
               = if bool_decide (f ∈ processedFiles st' /\ f ∉ processedFiles st)
                 then 1 else 0) ->
    (forall f, protected f = true -> f ∉ nr ++ nm ++ na) ->
    (forall f, protected f = true \/ f ∈ processedFiles st ->
               dest_tree (world st') !! f = dest_tree (world st) !! f
               /\ Forall (fun ev => ~ concerns f ev) evs) ->
    progress protected st st'.

(** A path has an outcome exactly when it is claimed, and then only one. *)
Definition balanced (st : State) : Prop :=
  forall f, occurrences f (result st)
            = if bool_decide (f ∈ processedFiles st) then 1 else 0.

(** All patterns the engine expands, in the order of the three loops. *)
Definition allPatterns (versionJson : VersionJson) : list string :=
  category alwaysReplace versionJson
  ++ category mergeIfChanged versionJson
  ++ category addOnly versionJson.




(** What the engine relies on in a category action: it either gives the
    file one outcome and claims it, or throws after a failed call and leaves
    result and claims as they were; either way it calls the file system for
    this file only. *)
Definition action_spec (action : string -> M unit) : Prop :=
  forall file st,
    match action file st with
    | (inr _, st') =>
        exists where_ evs,
          file_calls file (world st) (world st') evs
          /\ failures evs = []
          /\ processedFiles st' = {[file]} ∪ processedFiles st
          /\ result st' = record where_ file (result st)
    | (inl err, st') =>
        exists evs ev,
          file_calls file (world st) (world st') evs
          /\ failures evs = [ev]
          /\ ev_failure ev = Some err
          /\ processedFiles st' = processedFiles st
          /\ result st' = result st
    end.

End Engine.

Import Engine.

(** ** A small environment to run the engine in

    A matcher for literal paths, [dir/**] and [**]; a source tree with a
    fixed list of files; a JSON codec for a fixed list of documents; and a
    file system whose [copy] and write fail where a table says so. *)

Module Examples.

Definition simpleMatch (filePath pattern : string) : bool :=
  String.eqb pattern "**"
  || (endsWith pattern "/**"
      && String.prefix (String.substring 0 (String.length pattern - 2) pattern) filePath)
  || String.eqb filePath pattern.

Definition quote : string := String (ascii_of_nat 34) EmptyString.

Fixpoint joined (parts : list string) : string :=
  match parts with
  | [] => ""
  | [part] => part
  | part :: rest => part +:+ "," +:+ joined rest
  end.

Fixpoint render (v : json) : string :=
  match v with
  | JNull => "null"
  | JBool true => "true"
  | JBool false => "false"
  | JNum n => NilZero.string_of_int (Z.to_int n)
  | JStr s => quote +:+ s +:+ quote
  | JArr items => "[" +:+ joined (map render items) +:+ "]"
  | JObj props =>
      "{" +:+ joined (map (fun kv => quote +:+ fst kv +:+ quote +:+ ":" +:+ render (snd kv))
                          props) +:+ "}"
  end.

(** [JSON.parse] on the renderings of the given documents; anything else is
    a syntax error. *)
Definition parseAmong (documents : list json) (content : string) : thrown + json :=
  match List.find (fun d => String.eqb (render d) content) documents with
  | Some d => inr d
  | None => inl (ErrorObject "Unexpected token in JSON")
  end.

Definition faultAt {A} (table : list (string * A)) (file : string) : option A :=
  snd <$> List.find (fun entry => String.eqb (fst entry) file) table.

Definition exampleEnv (sourceFiles : list string) (documents : list json)
    (copyFaults writeFaults : list (string * (thrown * option string))) : Env :=
  {| minimatch := simpleMatch;
     glob := fun pattern => inr (List.filter (fun f => simpleMatch f pattern) sourceFiles);
     parseJson := parseAmong documents;
     stringifyJson := render;
     ensureDir_fault := fun _ _ => None;
     read_fault := fun _ _ _ => None;
     copy_fault := fun _ file => faultAt copyFaults file;
     write_fault := fun _ file _ => faultAt writeFaults file |}.

Definition manifest (replace never mergeJson addIfMissing : list string) : VersionJson :=
  {| version := "2.0.0"; packageName := "starter-kit";
     fileCategories :=
       Some {| alwaysReplace := Some replace; neverTouch := Some never;
               mergeIfChanged := Some mergeJson; addOnly := Some addIfMissing |} |}.

Definition tree (files : list (string * string)) : gmap string string :=
  list_to_map files.

Definition exampleWorld (source dest : list (string * string)) : World :=
  {| source_tree := tree source; dest_tree := tree dest; io_log := [] |}.


(** The configuration documents of the specification's scenario. *)
Definition sourceConfig : json :=
  JObj [("version", JStr "1.0"); ("theme", JStr "dark")].

Definition destConfig : json :=
  JObj [("version", JStr "1.0"); ("theme", JStr "light"); ("custom", JBool true)].


(** An upgrade of a kit whose user data is protected. *)
Definition kitEnv : Env :=
  exampleEnv ["README.md"; "data/user.db"; "config.json"; "notes.txt"]
    [sourceConfig; destConfig] [] [].

Definition kitManifest : VersionJson :=
  manifest ["**"] ["data/**"] ["config.json"] ["notes.txt"].

Definition kitWorld : World :=
  exampleWorld
    [("README.md", "new readme"); ("data/user.db", "seed");
     ("config.json", render sourceConfig); ("notes.txt", "notes")]
    [("README.md", "old readme"); ("data/user.db", "precious");
     ("config.json", render destConfig)].

(** The same kit with a manifest that replaces the readme only, and ships
    the notes for installations that have none. *)
Definition starterManifest : VersionJson :=
  manifest ["README.md"] ["data/**"] ["config.json"] ["notes.txt"; "README.md"].

(** A manifest of [addOnly] patterns alone. *)
Definition seedManifest : VersionJson :=
  manifest [] ["data/**"] [] ["notes.txt"; "README.md"; "data/**"].

(** A manifest whose patterns match nothing the kit ships. *)
Definition strayManifest : VersionJson :=
  manifest ["LICENSE"] [] ["settings/**"] ["CHANGELOG.md"].











End Examples.

Import Examples.

(** ** Paths into a document *)




(** ** Vocabulary of the properties of a whole run *)

(** The files the expansions of the patterns yield, in order; a failed
    expansion yields none. *)
Definition expandedFiles (env : Env) (patterns : list string) : list string :=
  concat (map (fun pattern => match glob env pattern with
                              | inr files => files
                              | inl _ => []
                              end) patterns).

(** The states in which the three loops of a run end. *)
Definition afterAlwaysReplace (env : Env) (versionJson : VersionJson) (w : World)
  : State :=
  exec (processAlwaysReplace env (category neverTouch versionJson)
          (category alwaysReplace versionJson)) (initial w).

Definition afterMergeIfChanged (env : Env) (versionJson : VersionJson) (w : World)
  : State :=
  exec (processMergeIfChanged env (category neverTouch versionJson)
          (category mergeIfChanged versionJson)) (afterAlwaysReplace env versionJson w).

Definition afterAddOnly (env : Env) (versionJson : VersionJson) (w : World)
  : State :=
  exec (processAddOnly env (category neverTouch versionJson)
          (category addOnly versionJson)) (afterMergeIfChanged env versionJson w).

(** The list of a result that stands for an outcome. *)
Definition listed (where_ : slot) (r : ApplyResult) : list string :=
  match where_ with
  | InReplaced => replaced r
  | InMerged => merged r
  | InAdded => added r
  | InSkipped => skipped r
  end.

(** No call on the file has failed among [evs]. *)
Definition quiet (file : string) (evs : list io_event) : Prop :=
  Forall (fun ev => concerns file ev -> ev_failure ev = None) evs.

(** What a category action has done when it gives a file an outcome, from
    the world [w] before it to the world [w'] after it. *)
Definition outcome_means (env : Env) (file : string) (w w' : World) (where_ : slot)
  : Prop :=
  match where_ with
  | InReplaced =>
      exists content,
        source_tree w !! file = Some content
        /\ dest_tree w' = <[file := content]> (dest_tree w)
  | InAdded =>
      exists content,
        source_tree w !! file = Some content
        /\ dest_tree w !! file = None
        /\ dest_tree w' = <[file := content]> (dest_tree w)
  | InMerged =>
      exists sourceText destText incoming existing,
        endsWith file ".json" = true
        /\ source_tree w !! file = Some sourceText
        /\ dest_tree w !! file = Some destText
        /\ parseJson env sourceText = inr incoming
        /\ parseJson env destText = inr existing
        /\ dest_tree w'
           = <[file := stringifyJson env (deepMerge incoming existing)]> (dest_tree w)
  | InSkipped => is_Some (dest_tree w !! file) /\ dest_tree w' = dest_tree w
  end.

(** The action gives a file one of the [allowed] outcomes only, and each
    outcome means what [outcome_means] says. *)
Definition action_means (env : Env) (allowed : slot -> bool)
    (action : string -> M unit) : Prop :=
  forall file st st',
    action file st = (inr tt, st') ->
    exists where_,
      allowed where_ = true
      /\ result st' = record where_ file (result st)
      /\ outcome_means env file (world st) (world st') where_.

Definition onlyReplaced (where_ : slot) : bool :=
  match where_ with InReplaced => true | _ => false end.

Definition notAdded (where_ : slot) : bool :=
  match where_ with InAdded => false | _ => true end.

Definition addedOrSkipped (where_ : slot) : bool :=
  match where_ with InAdded | InSkipped => true | _ => false end.

(** What an outcome of the file [g], recorded in a run that started in the
    world [w], says about the content [now] the destination holds for it;
    [undisturbed] stands for: no call on the file has failed so far. *)
Definition stands (env : Env) (protected : string -> bool) (w : World)
    (g : string) (now : option string) (undisturbed : Prop) (where_ : slot) : Prop :=
  match where_ with
  | InReplaced => is_Some (source_tree w !! g) /\ now = source_tree w !! g
  | InAdded =>
      is_Some (source_tree w !! g) /\ now = source_tree w !! g
      /\ (undisturbed -> dest_tree w !! g = None)
  | InMerged =>
      exists sourceText destText incoming existing,
        endsWith g ".json" = true
        /\ source_tree w !! g = Some sourceText
        /\ parseJson env sourceText = inr incoming
        /\ parseJson env destText = inr existing
        /\ now = Some (stringifyJson env (deepMerge incoming existing))
        /\ (undisturbed -> dest_tree w !! g = Some destText)
  | InSkipped =>
      (protected g = true \/ is_Some now)
      /\ (undisturbed -> now = dest_tree w !! g)
  end.

(** The state of a run that started in the world [w] is faithful: the
    source tree is as it was, every recorded outcome is claimed and stands,
    and an unclaimed file on which no call failed is as it was. *)
Definition faithful (env : Env) (protected : string -> bool) (w : World)
    (st : State) : Prop :=
  source_tree (world st) = source_tree w
  /\ exists evs,
       io_log (world st) = io_log w ++ evs
       /\ forall g,
            (forall where_, g ∈ listed where_ (result st) ->
               g ∈ processedFiles st
               /\ stands env protected w g (dest_tree (world st) !! g)
                    (quiet g evs) where_)
            /\ (g ∉ processedFiles st -> quiet g evs ->
                dest_tree (world st) !! g = dest_tree w !! g).

(** The state after a failed expansion, and after a failed action: the
    call is in the log already, the message is added. *)
Definition reported (tag subject : string) (err : thrown) (st : State) : State :=
  set_result (with_error (tag +:+ subject +:+ ": " +:+ getErrorMessage err) (result st)) st.

Definition claimedSkipped (file : string) (st : State) : State :=
  {| world := world st; result := record InSkipped file (result st);
     processedFiles := {[file]} ∪ processedFiles st |}.

(** [I] is kept by every step of a loop over [patterns]: a failed
    expansion, an expansion, the skip of a protected file, a successful
    action and a failed one. *)
Definition preserved (env : Env) (nt : list string) (patternTag fileTag : string)
    (action : string -> M unit) (patterns : list string) (I : State -> Prop) : Prop :=
  (forall st pattern err,
      pattern ∈ patterns -> glob env pattern = inl err -> I st ->
      I (reported patternTag pattern err
           (set_world (logged (globEvent pattern (Some err)) (world st)) st)))
  /\ (forall st pattern files,
        pattern ∈ patterns -> glob env pattern = inr files -> I st ->
        I (set_world (logged (globEvent pattern None) (world st)) st))
  /\ (forall st file,
        file ∈ expandedFiles env patterns -> file ∉ processedFiles st ->
        isProtected env nt file = true -> I st -> I (claimedSkipped file st))
  /\ (forall st st' file,
        file ∈ expandedFiles env patterns -> file ∉ processedFiles st ->
        isProtected env nt file = false ->
        action file st = (inr tt, st') -> I st -> I st')
  /\ (forall st st' file err,
        file ∈ expandedFiles env patterns -> file ∉ processedFiles st ->
        isProtected env nt file = false ->
        action file st = (inl err, st') -> I st ->
        I (reported fileTag file err st')).


(** ** The manifest as [detect.ts] reads it *)

Module Detect.



End Detect.

(** ** The git backup ([createGitBackup])

    [createGitBackup(dirPath, message)] starts up to three git commands with
    [spawnSync], each in [dirPath].  What a command does is git's business:
    the model takes from the environment what [spawnSync] gives for a
    command after the calls made before it, either the exit status of the
    child ([None] for the [null] of a child that was killed or could not be
    started) or a thrown value (Node rejects an argument that holds a null
    character, for one), and whether the import of [child_process] fails.
    The state is the list of the calls to [spawnSync], in order. *)

Module Git.

Record command : Type := {
  program : string;
  args : list string;
  cwd : string
}.

Record Process : Type := {
  import_fault : option thrown;
  spawn : list command -> command -> thrown + option Z
}.

Definition G (A : Type) : Type := list command -> (thrown + A) * list command.

Definition ret {A} (a : A) : G A := fun calls => (inr a, calls).

Definition bind {A B} (m : G A) (k : A -> G B) : G B :=
  fun calls =>
    match m calls with
    | (inr a, calls') => k a calls'
    | (inl err, calls') => (inl err, calls')
    end.

Definition try_catch {A} (body : G A) (handler : thrown -> G A) : G A :=
  fun calls =>
    match body calls with
    | (inl err, calls') => handler err calls'
    | r => r
    end.

(** [await import('child_process')]. *)
Definition importChildProcess (proc : Process) : G unit := fun calls =>
  match import_fault proc with
  | Some err => (inl err, calls)
  | None => (inr tt, calls)
  end.

(** [spawnSync('git', args, { cwd: dirPath, stdio: 'pipe' }).status]. *)
Definition spawnSync (proc : Process) (dirPath : string) (arguments : list string)
  : G (option Z) := fun calls =>
  let c := {| program := "git"; args := arguments; cwd := dirPath |} in
  (spawn proc calls c, calls ++ [c]).

Definition createGitBackup (proc : Process) (dirPath message : string) : G bool :=
  try_catch
    (bind (importChildProcess proc) (fun _ =>
     bind (spawnSync proc dirPath ["add"; "-A"]) (fun _ =>
     bind (spawnSync proc dirPath ["diff"; "--cached"; "--quiet"]) (fun diffStatus =>
     if bool_decide (diffStatus = Some 0%Z) then ret false
     else
       bind (spawnSync proc dirPath ["commit"; "-m"; message]) (fun commitStatus =>
       ret (bool_decide (commitStatus = Some 0%Z)))))))
    (fun _ => ret false).

(** The three commands. *)
Definition stage (dirPath : string) : command :=
  {| program := "git"; args := ["add"; "-A"]; cwd := dirPath |}.

Definition staged (dirPath : string) : command :=
  {| program := "git"; args := ["diff"; "--cached"; "--quiet"]; cwd := dirPath |}.

Definition commit (dirPath message : string) : command :=
  {| program := "git"; args := ["commit"; "-m"; message]; cwd := dirPath |}.

(** A repository in which [git diff --cached --quiet] finds staged changes
    (exit status 1) and every other command succeeds. *)
Definition dirtyRepo : Process :=
  {| import_fault := None;
     spawn := fun _ c => inr (Some (if bool_decide (args c = ["diff"; "--cached"; "--quiet"])
                                    then 1%Z else 0%Z)) |}.

End Git.

(** ** The engine before [mergeIfChanged] and [addOnly]

    The earlier [applyFileCategories] has the first loop only, keeps no set
    of processed files, and reports [replaced], [skipped] and [errors].  It
    is embedded in the same monad; the parts of the state it has not got
    (the two other lists, the set) stay as they start. *)

Module Legacy.

Local Open Scope engine_scope.

Record ApplyResult : Type := {
  replaced : list string;
  skipped : list string;
  errors : list string
}.

Section Calls.
Variable env : Env.

Definition processFile (neverTouchPatterns : list string) (file : string) : M unit :=
  let shouldSkip := existsb (matchesPattern env file) neverTouchPatterns in
  if shouldSkip then push_skipped file
  else
    try_catch
      (ensureDir env file ;;
       copy env file ;;
       push_replaced file)
      (fun err => push_error ("Failed to copy " +:+ file +:+ ": " +:+ getErrorMessage err)).

Definition processPattern (neverTouchPatterns : list string) (pattern : string)
  : M unit :=
  try_catch
    (files <- globFiles env pattern ;;
     for_of files (processFile neverTouchPatterns))
    (fun err => push_error ("Failed to process pattern " +:+ pattern +:+ ": "
                            +:+ getErrorMessage err)).

Definition categoryLoop (versionJson : VersionJson) : M ApplyResult :=
  let alwaysReplace := category Engine.alwaysReplace versionJson in
  let neverTouch := category Engine.neverTouch versionJson in
  for_of alwaysReplace (processPattern neverTouch) ;;
  (fun st => (inr {| replaced := Engine.replaced (result st);
                     skipped := Engine.skipped (result st);
                     errors := Engine.errors (result st) |}, st)).

Definition applyFileCategories (versionJson : VersionJson) (w : World)
  : (thrown + ApplyResult) * World :=
  let '(r, st) := categoryLoop versionJson (initial w) in
  (r, world st).
End Calls.

End Legacy.

(** The two engines are in step: the same world, the same result, and the
    later one has merged and added nothing. *)
Definition in_step (old new : State) : Prop :=
  world old = world new /\ result old = result new
  /\ merged (result new) = [] /\ added (result new) = [].

(** ** Project names ([project.ts])

    [suggestProjectName] derives the default project name from a directory,
    and the prompt of [askForNewProject] validates what the user enters.
    [path.basename] and [toLowerCase] are the platform's; the two regular
    expressions work on the characters [a-z], [0-9] and [-] alone and are
    written out as scans. *)

Module Project.

Record Platform : Type := {
  basename : string -> string;
  toLowerCase : string -> string
}.

Definition dash : ascii := "-"%char.

(** The class [[a-z0-9]]. *)
Definition isLowerAlnum (c : ascii) : bool :=
  let n := nat_of_ascii c in
  ((97 <=? n)%nat && (n <=? 122)%nat) || ((48 <=? n)%nat && (n <=? 57)%nat).

(** [s.replace(/[^a-z0-9]+/g, '-')]: every maximal run of other characters
    becomes one dash; [inRun] says that the scan is inside such a run. *)
Fixpoint collapseRuns (inRun : bool) (s : string) : string :=
  match s with
  | EmptyString => EmptyString
  | String c rest =>
      if isLowerAlnum c then String c (collapseRuns false rest)
      else if inRun then collapseRuns true rest
      else String dash (collapseRuns true rest)
  end.

(** [s.replace(/^-|-$/g, '')]: a dash at the start goes, and so does a dash
    at the end of what is left. *)
Definition dropLeadingDash (s : string) : string :=
  match s with
  | String c rest => if Ascii.eqb c dash then rest else s
  | EmptyString => EmptyString
  end.

Fixpoint dropTrailingDash (s : string) : string :=
  match s with
  | EmptyString => EmptyString
  | String c rest =>
      match rest with
      | EmptyString => if Ascii.eqb c dash then EmptyString else s
      | String _ _ => String c (dropTrailingDash rest)
      end
  end.

Definition suggestProjectName (platform : Platform) (dirPath : string) : string :=
  let dirName := basename platform dirPath in
  dropTrailingDash
    (dropLeadingDash (collapseRuns false (toLowerCase platform dirName))).

(** [/^[a-z0-9-]+$/.test(value)] on a non-empty value. *)
Fixpoint nameChars (value : string) : bool :=
  match value with
  | EmptyString => true
  | String c rest => (isLowerAlnum c || Ascii.eqb c dash) && nameChars rest
  end.

(** The [validate] callback of the prompt: the complaint, or [None] for
    [undefined]. *)
Definition validate (value : string) : option string :=
  if String.eqb value "" then Some "Project name is required"
  else if negb (nameChars value) then
    Some "Use lowercase letters, numbers, and hyphens only"
  else None.

Definition startsWithDash (s : string) : bool :=
  match s with
  | String c _ => Ascii.eqb c dash
  | EmptyString => false
  end.

Fixpoint endsWithDash (s : string) : bool :=
  match s with
  | EmptyString => false
  | String c rest =>
      match rest with
      | EmptyString => Ascii.eqb c dash
      | String _ _ => endsWithDash rest
      end
  end.

(** Two dashes in a row. *)
Fixpoint doubleDash (s : string) : bool :=
  match s with
  | EmptyString => false
  | String c rest => (Ascii.eqb c dash && startsWithDash rest) || doubleDash rest
  end.

(** A platform for the examples: paths with [/], names in ASCII. *)
Fixpoint afterLastSlash (acc s : string) : string :=
  match s with
  | EmptyString => acc
  | String c rest =>
      if Ascii.eqb c "/"%char then afterLastSlash rest rest
      else afterLastSlash acc rest
  end.

Definition asciiLower (c : ascii) : ascii :=
  let n := nat_of_ascii c in
  if ((65 <=? n)%nat && (n <=? 90)%nat) then ascii_of_nat (n + 32) else c.

Fixpoint mapChars (f : ascii -> ascii) (s : string) : string :=
  match s with
  | EmptyString => EmptyString
  | String c rest => String (f c) (mapChars f rest)
  end.

Definition posix : Platform :=
  {| basename := fun dirPath => afterLastSlash dirPath dirPath;
     toLowerCase := mapChars asciiLower |}.

End Project.

(** * Properties *)

(** ** Properties of objects as association lists *)

Section Props.
Implicit Types (props : list (string * json)) (k : string) (v : json).









End Props.

(** ** Properties of the merge loops *)

Section MergeLoops.
Variable f : option json -> json -> json.
Implicit Types (source object : list (string * json)) (k : string).












End MergeLoops.

(** ** Properties of [mergeValue] *)
















(** ** Properties of the top-level merge *)













(** ** The deep merge on documents *)

Example merge_nested :
  deepMerge (JObj [("a", JNum 1); ("b", JObj [("c", JNum 2)])])
            (JObj [("b", JObj [("d", JNum 3)])])
  = JObj [("a", JNum 1); ("b", JObj [("c", JNum 2); ("d", JNum 3)])].
Proof. reflexivity. Qed.

Example merge_scalar :
  deepMerge (JObj [("a", JNum 1)]) (JObj [("a", JNum 2)]) = JObj [("a", JNum 2)].
Proof. reflexivity. Qed.

Example merge_array :
  deepMerge (JObj [("a", JArr [JNum 1; JNum 2])]) (JObj [("a", JArr [JNum 3])])
  = JObj [("a", JArr [JNum 3; JNum 2])].
Proof. reflexivity. Qed.

(** A source array and a source string are spread over index keys. *)
Example merge_top_level_array :
  deepMerge (JArr [JNum 1; JNum 2]) (JStr "x")
  = JObj [("0", JStr "x"); ("1", JNum 2)].
Proof. reflexivity. Qed.

(** A source object that meets a target array: lodash keeps the array as the
    receiver of the object's properties, and the document written holds the
    array. *)
Example merge_object_into_array :
  deepMerge (JObj [("a", JArr [JNum 1; JNum 2])]) (JObj [("a", JObj [("y", JNum 1)])])
  = JObj [("a", JArr [JNum 1; JNum 2])].
Proof. reflexivity. Qed.






(** ** The category actions meet [action_spec] *)

Ltac step_call env :=
  match goal with
  | |- context [ensureDir_fault env ?w ?f] =>
      destruct (ensureDir_fault env w f) as [?|] eqn:?
  | |- context [copy_fault env ?w ?f] =>
      destruct (copy_fault env w f) as [[? ?]|] eqn:?
  | |- context [read_fault env ?w ?o ?f] =>
      destruct (read_fault env w o f) as [?|] eqn:?
  | |- context [write_fault env ?w ?f ?d] =>
      destruct (write_fault env w f d) as [[? ?]|] eqn:?
  | |- context [parseJson env ?c] =>
      destruct (parseJson env c) as [?|?] eqn:?
  | |- context [source_tree ?w !! ?f] =>
      destruct (source_tree w !! f) as [?|] eqn:?
  | |- context [dest_tree ?w !! ?f] =>
      destruct (dest_tree w !! f) as [?|] eqn:?
  | |- context [endsWith ?f ?s] =>
      destruct (endsWith f s) eqn:?
  end; cbn.

Ltac close_calls :=
  unfold file_calls; cbn;
  split_and?;
  [ reflexivity
  | intros g Hg; by rewrite ?lookup_partial_alter_ne by done
  | rewrite <- ?app_assoc; cbn; reflexivity
  | repeat (apply Forall_cons_2; [split; [discriminate|reflexivity]|]);
    apply Forall_nil_2 ].

Ltac close_success where_ :=
  exists where_; eexists; split; [close_calls|]; split_and?; reflexivity.

Ltac close_failure :=
  do 2 eexists; split; [close_calls|]; split_and?; reflexivity.

Section Actions.
Variable env : Env.

Lemma failures_app l1 l2 : failures (l1 ++ l2) = failures l1 ++ failures l2.
Proof. apply filter_app. Qed.

Lemma replaceAction_spec : action_spec (replaceAction env).
Proof.
  intros file st.
  unfold replaceAction, bind, ensureDir, copy, push_replaced, processedFiles_add. cbn.
  repeat step_call env; first [close_success InReplaced | close_failure].
Qed.

Lemma mergeAction_spec : action_spec (mergeAction env).
Proof.
  intros file st.
  unfold mergeAction, bind, pathExists, readJson, writeJson, ensureDir, copy,
    push_replaced, push_merged, push_skipped, processedFiles_add. cbn.
  destruct (dest_tree (world st) !! file) as [existing|] eqn:Hdest; cbn.
  - destruct (endsWith file ".json") eqn:Hjson; cbn.
    + rewrite ?Hdest.
      repeat step_call env; rewrite ?Hdest; cbn;
        first [close_success InMerged | close_failure].
    + exists InSkipped, []. split; [|done].
      unfold file_calls. split_and?; try done. by rewrite app_nil_r.
  - repeat step_call env; first [close_success InReplaced | close_failure].
Qed.

Lemma addAction_spec : action_spec (addAction env).
Proof.
  intros file st.
  unfold addAction, bind, pathExists, ensureDir, copy,
    push_added, push_skipped, processedFiles_add. cbn.
  destruct (dest_tree (world st) !! file) as [existing|] eqn:Hdest; cbn.
  - exists InSkipped, []. split; [|done].
    unfold file_calls. split_and?; try done. by rewrite app_nil_r.
  - repeat step_call env; first [close_success InAdded | close_failure].
Qed.
End Actions.

(** ** The loops always complete *)

Section Loops.
Variable env : Env.
Variable nt : list string.

Lemma processFile_run fileTag action file :
  action_spec action ->
  forall st, exists st',
    processFile env fileTag action nt file st = (inr tt, st')
    /\ visit (isProtected env nt) file st st'.
Proof.
  intros Hspec st. unfold processFile, bind, processedFiles_has. cbn.
  case_bool_decide as Hclaimed; cbn.
  { exists st. split; [done|]. by left. }
  fold (isProtected env nt file).
  destruct (isProtected env nt file) eqn:Hprot; cbn.
  { eexists. split; [reflexivity|]. right. by apply ft_protect. }
  unfold try_catch. specialize (Hspec file st).
  destruct (action file st) as [[err|[]] st1].
  - destruct Hspec as (evs & ev & Hcalls & Hfail & Herr & Hproc & Hres).
    eexists. split; [reflexivity|]. right.
    eapply (ft_failure _ _ _ _ evs ev); cbn; try done.
    + exists fileTag, err. split; [done|].
      destruct Hcalls as (_ & _ & _ & Hall).
      assert (ev ∈ evs) as Hin.
      { apply (list_elem_of_filter (fun ev => is_Some (ev_failure ev)) evs ev).
        fold (failures evs). rewrite Hfail. by left. }
      rewrite Forall_forall in Hall. destruct (Hall ev Hin) as [_ ->]. done.
    + by rewrite Hres.
  - destruct Hspec as (where_ & evs & Hcalls & Hfail & Hproc & Hres).
    exists st1. split; [done|]. right.
    by apply (ft_outcome _ _ _ _ where_ evs).
Qed.

Lemma processFiles_run fileTag action files :
  action_spec action ->
  forall st, exists st',
    for_of files (processFile env fileTag action nt) st = (inr tt, st')
    /\ visits (isProtected env nt) files st st'.
Proof.
  intros Hspec. induction files as [|file files IH]; intros st; simpl.
  - exists st. split; [done|constructor].
  - destruct (processFile_run fileTag action file Hspec st) as (st1 & H1 & V1).
    destruct (IH st1) as (st2 & H2 & V2).
    exists st2. unfold bind. rewrite H1. split; [done|]. by econstructor.
Qed.

Lemma processPattern_run patternTag fileTag action pattern :
  action_spec action ->
  forall st, exists st',
    processPattern env patternTag fileTag action nt pattern st = (inr tt, st')
    /\ expansion env (isProtected env nt) pattern st st'.
Proof.
  intros Hspec st. unfold processPattern, try_catch, bind, globFiles.
  destruct (glob env pattern) as [err|files] eqn:Hglob.
  - eexists. split; [reflexivity|].
    eapply (expansion_failed _ _ _ _ _ err); [done| |reflexivity].
    by exists patternTag, err.
  - match goal with |- context [for_of _ _ ?s] => set (st0 := s) end.
    destruct (processFiles_run fileTag action files Hspec st0) as (st1 & H1 & V1).
    exists st1. rewrite H1. split; [done|].
    by apply (expansion_done _ _ _ _ _ files).
Qed.

Lemma processPatterns_run patternTag fileTag action patterns :
  action_spec action ->
  forall st, exists st',
    processPatterns env patternTag fileTag action nt patterns st = (inr tt, st')
    /\ expansions env (isProtected env nt) patterns st st'.
Proof.
  intros Hspec. unfold processPatterns.
  induction patterns as [|pattern patterns IH]; intros st; simpl.
  - exists st. split; [done|constructor].
  - destruct (processPattern_run patternTag fileTag action pattern Hspec st)
      as (st1 & H1 & E1).
    destruct (IH st1) as (st2 & H2 & E2).
    exists st2. unfold bind. rewrite H1. split; [done|]. by econstructor.
Qed.
End Loops.

(** The three loops run one after the other, each to its end. *)
Lemma categoryLoops_run env versionJson st :
  let protected := isProtected env (category neverTouch versionJson) in
  exists st1 st2 st3,
    expansions env protected (category alwaysReplace versionJson) st st1
    /\ expansions env protected (category mergeIfChanged versionJson) st1 st2
    /\ expansions env protected (category addOnly versionJson) st2 st3
    /\ categoryLoops env versionJson st = (inr (result st3), st3).
Proof.
  intros protected. subst protected.
  unfold categoryLoops, processAlwaysReplace, processMergeIfChanged,
    processAddOnly.
  set (nt := category neverTouch versionJson).
  destruct (processPatterns_run env nt "Failed to process pattern " "Failed to copy "
              (replaceAction env) (category alwaysReplace versionJson)
              (replaceAction_spec env) st) as (st1 & H1 & S1).
  destruct (processPatterns_run env nt "Failed to process merge pattern "
              "Failed to merge " (mergeAction env)
              (category mergeIfChanged versionJson)
              (mergeAction_spec env) st1) as (st2 & H2 & S2).
  destruct (processPatterns_run env nt "Failed to process addOnly pattern "
              "Failed to add " (addAction env) (category addOnly versionJson)
              (addAction_spec env) st2) as (st3 & H3 & S3).
  exists st1, st2, st3. unfold bind. rewrite H1, H2, H3. done.
Qed.

(** ** What the loops do to the state: [progress] *)

Section Progress.
Variable protected : string -> bool.

Lemma progress_refl st : progress protected st st.
Proof.
  apply (Progress _ _ _ [] [] [] [] [] []); rewrite ?app_nil_r; try done.
  all: try by constructor.
  all: try (intros f _; by apply not_elem_of_nil).
  intros f. simpl. rewrite bool_decide_eq_false_2; [done|]. tauto.
Qed.

Lemma progress_trans st0 st1 st2 :
  progress protected st0 st1 -> progress protected st1 st2 ->
  progress protected st0 st2.
Proof.
  intros [evs1 errs1 nr1 nm1 na1 ns1 Hsrc1 Hsub1 Hlog1 Herr1 Hrep1 Hr1 Hm1 Ha1 Hs1
            Hcount1 Hprot1 Hframe1]
         [evs2 errs2 nr2 nm2 na2 ns2 Hsrc2 Hsub2 Hlog2 Herr2 Hrep2 Hr2 Hm2 Ha2 Hs2
            Hcount2 Hprot2 Hframe2].
  apply (Progress _ _ _ (evs1 ++ evs2) (errs1 ++ errs2) (nr1 ++ nr2) (nm1 ++ nm2)
           (na1 ++ na2) (ns1 ++ ns2)).
  - congruence.
  - by transitivity (processedFiles st1).
  - by rewrite Hlog2, Hlog1, app_assoc.
  - by rewrite Herr2, Herr1, app_assoc.
  - rewrite failures_app. by apply Forall2_app.
  - by rewrite Hr2, Hr1, app_assoc.
  - by rewrite Hm2, Hm1, app_assoc.
  - by rewrite Ha2, Ha1, app_assoc.
  - by rewrite Hs2, Hs1, app_assoc.
  - intros f. specialize (Hcount1 f). specialize (Hcount2 f).
    pose proof (Hsub1 f) as S1. pose proof (Hsub2 f) as S2.
    clear Hframe1 Hframe2 Hprot1 Hprot2 Hrep1 Hrep2.
    rewrite !count_occ_app in *.
    repeat case_bool_decide; try lia; exfalso; tauto.
  - intros f Hf. specialize (Hprot1 f Hf). specialize (Hprot2 f Hf).
    rewrite !elem_of_app in *. tauto.
  - intros f Hf.
    destruct (Hframe1 f Hf) as [Hd1 He1].
    destruct (Hframe2 f) as [Hd2 He2].
    { destruct Hf as [?|?]; [by left|right; by apply Hsub1]. }
    split; [congruence|]. by apply Forall_app.
Qed.

Lemma count_occ_single (file f : string) :
  count_occ string_dec [file] f = if bool_decide (f = file) then 1 else 0.
Proof.
  simpl. destruct (string_dec file f) as [->|Hne].
  - by rewrite bool_decide_eq_true_2.
  - by rewrite bool_decide_eq_false_2.
Qed.

Lemma newly_claimed (file f : string) (claimed claimed' : gset string) :
  file ∉ claimed -> claimed' = {[file]} ∪ claimed ->
  bool_decide (f ∈ claimed' /\ f ∉ claimed) = bool_decide (f = file).
Proof. intros Hn ->. apply bool_decide_ext. set_solver. Qed.

Lemma file_transition_progress file st st' :
  file_transition protected file st st' -> progress protected st st'.
Proof.
  intros [Hnew Hprot Hworld Hproc Hres
         |where_ evs Hnew Hprot (Hsrc & Hdest & Hlog & Hall) Hfail Hproc Hres
         |evs ev message Hnew Hprot (Hsrc & Hdest & Hlog & Hall) Hfail Hrep Hproc Hres].
  - apply (Progress _ _ _ [] [] [] [] [] [file]);
      rewrite ?Hworld, ?Hres, ?app_nil_r; try done.
    all: try by constructor.
    all: try (intros f _; by apply not_elem_of_nil).
    all: try set_solver.
    intros f. cbn [app].
    by rewrite (newly_claimed file f _ _ Hnew Hproc), count_occ_single.
  - assert (forall f, protected f = true \/ f ∈ processedFiles st -> f <> file) as Hother.
    { intros f [Hf|Hf] ->; [congruence|done]. }
    assert (forall f, protected f = true \/ f ∈ processedFiles st ->
              dest_tree (world st') !! f = dest_tree (world st) !! f
              /\ Forall (fun ev => ~ concerns f ev) evs) as Hframe.
    { intros f Hf. split; [by apply Hdest, Hother|].
      eapply Forall_impl; [exact Hall|]. intros ev [_ Hp] [_ Hq].
      apply (Hother f Hf). congruence. }
    assert (forall f, count_occ string_dec [file] f
              = if bool_decide (f ∈ processedFiles st' /\ f ∉ processedFiles st)
                then 1 else 0) as Hcount.
    { intros f. by rewrite (newly_claimed file f _ _ Hnew Hproc), count_occ_single. }
    assert (forall f, protected f = true -> f ∉ [file]) as Hnot.
    { intros f Hf ->%list_elem_of_singleton. congruence. }
    destruct where_.
    + apply (Progress _ _ _ evs [] [file] [] [] []);
        rewrite ?Hres, ?Hfail, ?app_nil_r; try done;
        first [by constructor | set_solver].
    + apply (Progress _ _ _ evs [] [] [file] [] []);
        rewrite ?Hres, ?Hfail, ?app_nil_r; try done;
        first [by constructor | set_solver].
    + apply (Progress _ _ _ evs [] [] [] [file] []);
        rewrite ?Hres, ?Hfail, ?app_nil_r; try done;
        first [by constructor | set_solver].
    + apply (Progress _ _ _ evs [] [] [] [] [file]);
        rewrite ?Hres, ?Hfail, ?app_nil_r; try done;
        first [by constructor | intros f _; by apply not_elem_of_nil | set_solver].
  - apply (Progress _ _ _ evs [message] [] [] [] []);
      rewrite ?Hres, ?Hfail, ?Hproc, ?app_nil_r; try done.
    all: try by repeat constructor.
    all: try (intros f _; by apply not_elem_of_nil).
    + intros f. simpl. rewrite bool_decide_eq_false_2; [done|]. tauto.
    + intros f Hf.
      assert (f <> file) as Hne by (destruct Hf as [Hf|Hf]; intros ->; [congruence|done]).
      split; [by apply Hdest|].
      eapply Forall_impl; [exact Hall|]. intros e [_ Hp] [_ Hq]. congruence.
Qed.

Lemma visit_progress file st st' :
  visit protected file st st' -> progress protected st st'.
Proof.
  intros [[_ ->]|H]; [apply progress_refl|by eapply file_transition_progress].
Qed.

Lemma visits_progress files st st' :
  visits protected files st st' -> progress protected st st'.
Proof.
  induction 1 as [st|file files st st1 st2 Hv _ IH]; [apply progress_refl|].
  eapply progress_trans; [|exact IH]. by eapply visit_progress.
Qed.

Lemma logged_progress pattern failure errs st :
  Forall2 reports (failures [globEvent pattern failure]) errs ->
  progress protected st
    (set_result {| replaced := replaced (result st); merged := merged (result st);
                   added := added (result st); skipped := skipped (result st);
                   errors := errors (result st) ++ errs |}
       (set_world (logged (globEvent pattern failure) (world st)) st)).
Proof.
  intros Hrep.
  apply (Progress _ _ _ [globEvent pattern failure] errs [] [] [] []);
    cbn; rewrite ?app_nil_r; try done.
  all: try (intros f _; by apply not_elem_of_nil).
  - intros f. rewrite bool_decide_eq_false_2; [done|]. tauto.
  - intros f _. split; [done|]. repeat constructor. by intros [? _].
Qed.

Lemma expansion_progress env pattern st st' :
  expansion env protected pattern st st' -> progress protected st st'.
Proof.
  intros [err message Hglob Hrep ->|files Hglob Hvisits].
  - apply (logged_progress pattern (Some err) [message]). by repeat constructor.
  - eapply progress_trans; [|by eapply visits_progress].
    pose proof (logged_progress pattern None [] st) as H.
    destruct st as [w [r m a s e] p]. cbn in *. rewrite app_nil_r in H.
    apply H. constructor.
Qed.

Lemma expansions_progress env patterns st st' :
  expansions env protected patterns st st' -> progress protected st st'.
Proof.
  induction 1 as [st|pattern patterns st st1 st2 He _ IH]; [apply progress_refl|].
  eapply progress_trans; [|exact IH]. by eapply expansion_progress.
Qed.
End Progress.

(** ** Every pattern is expanded and every file of an expansion settled *)

Section Coverage.
Variable env : Env.
Variable protected : string -> bool.

Lemma expandedPatterns_app l1 l2 :
  expandedPatterns (l1 ++ l2) = expandedPatterns l1 ++ expandedPatterns l2.
Proof. unfold expandedPatterns. by rewrite filter_app, map_app. Qed.

Lemma expandedPatterns_calls file evs :
  Forall (concerns file) evs -> expandedPatterns evs = [].
Proof.
  unfold expandedPatterns. induction 1 as [|ev evs [Hop _] _ IH]; [done|].
  by rewrite filter_cons_False.
Qed.

Lemma visit_expanded file st st' :
  visit protected file st st' ->
  expandedPatterns (io_log (world st')) = expandedPatterns (io_log (world st)).
Proof.
  intros [[_ ->]|[_ _ -> _ _
                 |where_ evs _ _ (_ & _ & Hlog & Hall) _ _ _
                 |evs ev message _ _ (_ & _ & Hlog & Hall) _ _ _ _]]; try done;
    by rewrite Hlog, expandedPatterns_app, (expandedPatterns_calls file evs Hall),
      app_nil_r.
Qed.

Lemma visits_expanded files st st' :
  visits protected files st st' ->
  expandedPatterns (io_log (world st')) = expandedPatterns (io_log (world st)).
Proof.
  induction 1 as [st|file files st st1 st2 Hv _ IH]; [done|].
  rewrite IH. by eapply visit_expanded.
Qed.

Lemma expansion_expanded pattern st st' :
  expansion env protected pattern st st' ->
  expandedPatterns (io_log (world st'))
  = expandedPatterns (io_log (world st)) ++ [pattern].
Proof.
  intros [err message _ _ ->|files _ Hv].
  - cbn -[expandedPatterns]. by rewrite expandedPatterns_app.
  - rewrite (visits_expanded _ _ _ Hv). cbn -[expandedPatterns].
    by rewrite expandedPatterns_app.
Qed.

Lemma expansions_expanded patterns st st' :
  expansions env protected patterns st st' ->
  expandedPatterns (io_log (world st'))
  = expandedPatterns (io_log (world st)) ++ patterns.
Proof.
  induction 1 as [st|pattern patterns st st1 st2 He _ IH]; [by rewrite app_nil_r|].
  by rewrite IH, (expansion_expanded _ _ _ He), <- app_assoc.
Qed.

Lemma settled_later file st st1 st2 :
  settled file st st1 -> progress protected st1 st2 -> settled file st st2.
Proof.
  intros [Hc|(evs & ev & Hlog & Hin & Hcon)]
         [evs2 errs nr nm na ns _ Hsub Hlog2 _ _ _ _ _ _ _ _ _].
  - left. by apply Hsub.
  - right. exists (evs ++ evs2), ev. split_and!; [|  |done].
    + by rewrite Hlog2, Hlog, app_assoc.
    + rewrite failures_app. apply elem_of_app. by left.
Qed.

Lemma settled_earlier file st0 st st' :
  progress protected st0 st -> settled file st st' -> settled file st0 st'.
Proof.
  intros [evs0 errs nr nm na ns _ _ Hlog0 _ _ _ _ _ _ _ _ _]
         [Hc|(evs & ev & Hlog & Hin & Hcon)].
  - by left.
  - right. exists (evs0 ++ evs), ev. split_and!; [|  |done].
    + by rewrite Hlog, Hlog0, app_assoc.
    + rewrite failures_app. apply elem_of_app. by right.
Qed.

Lemma visit_settled file st st' : visit protected file st st' -> settled file st st'.
Proof.
  intros [[Hc ->]|[_ _ _ Hproc _
                  |where_ evs _ _ _ _ Hproc _
                  |evs ev message _ _ (_ & _ & Hlog & Hall) Hfail _ _ _]].
  - by left.
  - left. rewrite Hproc. set_solver.
  - left. rewrite Hproc. set_solver.
  - right. exists evs, ev. split; [done|].
    assert (ev ∈ failures evs) as Hin by (rewrite Hfail; by left).
    split; [done|].
    apply list_elem_of_filter in Hin as [_ Hin].
    rewrite Forall_forall in Hall. by apply Hall.
Qed.

Lemma visits_settled files st st' :
  visits protected files st st' -> forall f, f ∈ files -> settled f st st'.
Proof.
  induction 1 as [st|file files st st1 st2 Hv Hvs IH]; intros f Hf.
  - by apply elem_of_nil in Hf.
  - apply elem_of_cons in Hf as [->|Hf].
    + eapply settled_later; [by apply visit_settled|by eapply visits_progress].
    + eapply settled_earlier; [by eapply visit_progress|by apply IH].
Qed.

Lemma expansion_settled pattern st st' :
  expansion env protected pattern st st' ->
  forall files f, glob env pattern = inr files -> f ∈ files -> settled f st st'.
Proof.
  intros [err message Hglob _ _|files' Hglob Hv] files f Hfiles Hf; [congruence|].
  assert (files' = files) as -> by congruence.
  eapply settled_earlier; [|by eapply visits_settled].
  pose proof (logged_progress protected pattern None [] st) as H.
  destruct st as [w [r m a s e] p]. cbn in *. rewrite app_nil_r in H.
  apply H. constructor.
Qed.

Lemma expansions_settled patterns st st' :
  expansions env protected patterns st st' ->
  forall pattern files f,
    pattern ∈ patterns -> glob env pattern = inr files -> f ∈ files ->
    settled f st st'.
Proof.
  induction 1 as [st|p patterns st st1 st2 He Hes IH]; intros pattern files f Hp Hg Hf.
  - by apply elem_of_nil in Hp.
  - apply elem_of_cons in Hp as [->|Hp].
    + eapply settled_later; [by eapply expansion_settled|by eapply expansions_progress].
    + eapply settled_earlier; [by eapply expansion_progress|by eapply IH].
Qed.
End Coverage.

(** ** The whole run *)

Lemma run_phases env versionJson w :
  let protected := isProtected env (category neverTouch versionJson) in
  exists st1 st2 st3,
    expansions env protected (category alwaysReplace versionJson) (initial w) st1
    /\ expansions env protected (category mergeIfChanged versionJson) st1 st2
    /\ expansions env protected (category addOnly versionJson) st2 st3
    /\ applyFileCategories env versionJson w = (inr (result st3), world st3).
Proof.
  intros protected.
  destruct (categoryLoops_run env versionJson (initial w))
    as (st1 & st2 & st3 & E1 & E2 & E3 & Hrun).
  exists st1, st2, st3. split_and!; try done.
  unfold applyFileCategories. by rewrite Hrun.
Qed.

Lemma run_progress env versionJson w :
  exists st,
    applyFileCategories env versionJson w = (inr (result st), world st)
    /\ progress (isProtected env (category neverTouch versionJson)) (initial w) st.
Proof.
  destruct (run_phases env versionJson w) as (st1 & st2 & st3 & E1 & E2 & E3 & Hrun).
  exists st3. split; [done|].
  eapply progress_trans; [by eapply expansions_progress|].
  eapply progress_trans; by eapply expansions_progress.
Qed.

Lemma progress_occurrences protected st st' f :
  progress protected st st' ->
  occurrences f (result st')
  = occurrences f (result st)
    + (if bool_decide (f ∈ processedFiles st' /\ f ∉ processedFiles st) then 1 else 0).
Proof.
  intros [evs errs nr nm na ns _ _ _ _ _ Hr Hm Ha Hs Hcount _ _].
  unfold occurrences, recorded. rewrite Hr, Hm, Ha, Hs, <- (Hcount f).
  rewrite !count_occ_app. lia.
Qed.

Lemma progress_balanced protected st st' :
  progress protected st st' -> balanced st -> balanced st'.
Proof.
  intros Hp Hb f. rewrite (progress_occurrences _ _ _ f Hp), (Hb f).
  destruct Hp as [evs errs nr nm na ns _ Hsub _ _ _ _ _ _ _ _ _ _].
  pose proof (Hsub f) as Hf. clear -Hf.
  repeat case_bool_decide; first [lia | exfalso; tauto].
Qed.

Lemma initial_balanced w : balanced (initial w).
Proof. intros f. cbn. by rewrite bool_decide_eq_false_2 by set_solver. Qed.

Lemma balanced_NoDup st : balanced st -> NoDup (recorded (result st)).
Proof.
  intros Hb. apply NoDup_ListNoDup, (proj2 (NoDup_count_occ string_dec _)). intros f.
  specialize (Hb f). unfold occurrences in Hb. rewrite Hb. by case_bool_decide; lia.
Qed.

Lemma balanced_claimed st f :
  balanced st -> f ∈ recorded (result st) <-> f ∈ processedFiles st.
Proof.
  intros Hb. specialize (Hb f). unfold occurrences in Hb.
  rewrite list_elem_of_In, (count_occ_In string_dec), Hb.
  destruct (decide (f ∈ processedFiles st)) as [H|H].
  - rewrite bool_decide_eq_true_2 by done. split; [done|lia].
  - rewrite bool_decide_eq_false_2 by done. split; [lia|done].
Qed.

(** The upgrade of the example kit: everything is replaced except the
    protected user data. *)
Example kit_upgrade :
  fst (applyFileCategories kitEnv kitManifest kitWorld)
  = inr {| replaced := ["README.md"; "config.json"; "notes.txt"]; merged := [];
           added := []; skipped := ["data/user.db"]; errors := [] |}.
Proof. by vm_compute. Qed.

(** C10: in every run of [applyFileCategories] the four result sets are
    pairwise disjoint; no path is recorded twice, in one set or in two. *)
Theorem result_sets_disjoint env versionJson w :
  returned (fst (applyFileCategories env versionJson w)) (fun r =>
    NoDup (replaced r ++ merged r ++ added r ++ skipped r)
    /\ (forall f, f ∈ replaced r ->
                  (f ∉ merged r) /\ (f ∉ added r) /\ (f ∉ skipped r))
    /\ (forall f, f ∈ merged r -> (f ∉ added r) /\ (f ∉ skipped r))
    /\ (forall f, f ∈ added r -> f ∉ skipped r)).
Proof.
  destruct (run_progress env versionJson w) as (st & -> & Hp). cbn.
  pose proof (balanced_NoDup st (progress_balanced _ _ _ Hp (initial_balanced w))) as Hnd.
  unfold recorded in Hnd. split; [done|].
  apply NoDup_app in Hnd as (_ & Hr & Hnd).
  apply NoDup_app in Hnd as (_ & Hm & Hnd).
  apply NoDup_app in Hnd as (_ & Ha & _).
  split_and!.
  - intros f Hf. specialize (Hr f Hf). rewrite !elem_of_app in Hr. tauto.
  - intros f Hf. specialize (Hm f Hf). rewrite !elem_of_app in Hm. tauto.
  - intros f Hf. by apply Ha.
Qed.

Lemma expansions_app env protected l1 l2 st st1 st2 :
  expansions env protected l1 st st1 -> expansions env protected l2 st1 st2 ->
  expansions env protected (l1 ++ l2) st st2.
Proof.
  induction 1 as [st|p l1 st sta st1 He _ IH]; intros H2; [done|].
  simpl. econstructor; [exact He|]. by apply IH.
Qed.


Lemma expansions_reported env protected patterns st st' :
  expansions env protected patterns st st' ->
  forall pattern err,
    pattern ∈ patterns -> glob env pattern = inl err ->
    exists evs,
      io_log (world st') = io_log (world st) ++ evs
      /\ globEvent pattern (Some err) ∈ evs.
Proof.
  induction 1 as [st|p patterns st st1 st2 He Hes IH]; intros pattern err Hp Hg.
  - by apply elem_of_nil in Hp.
  - apply elem_of_cons in Hp as [->|Hp].
    + destruct (expansions_progress _ _ _ _ _ Hes)
        as [evs2 errs nr nm na ns _ _ Hlog2 _ _ _ _ _ _ _ _ _].
      destruct He as [err' message Hg' _ ->|files Hg' _]; [|congruence].
      assert (err' = err) as -> by congruence.
      exists (globEvent p (Some err) :: evs2). split; [|by left].
      rewrite Hlog2. cbn. by rewrite <- app_assoc.
    + destruct (expansion_progress _ _ _ _ _ He)
        as [evs1 errs nr nm na ns _ _ Hlog1 _ _ _ _ _ _ _ _ _].
      destruct (IH pattern err Hp Hg) as (evs & Hlog & Hin).
      exists (evs1 ++ evs). split; [by rewrite Hlog, Hlog1, app_assoc|].
      apply elem_of_app. by right.
Qed.






(** ** Claimed paths *)

Section Claims.
Variable env : Env.
Variable nt : list string.


Lemma loop_expansions patternTag fileTag action patterns st :
  action_spec action ->
  processPatterns env patternTag fileTag action nt patterns st
  = (inr tt, exec (processPatterns env patternTag fileTag action nt patterns) st)
  /\ expansions env (isProtected env nt) patterns st
       (exec (processPatterns env patternTag fileTag action nt patterns) st).
Proof.
  intros Hspec.
  destruct (processPatterns_run env nt patternTag fileTag action patterns Hspec st)
    as (st' & Hrun & Hexp).
  unfold exec. by rewrite Hrun.
Qed.

End Claims.


(** A file that [alwaysReplace] and [mergeIfChanged] both name is replaced
    by the first loop and passed over by the second. *)
Example claimed_by_first_category :
  fst (applyFileCategories kitEnv (manifest ["config.json"] [] ["config.json"] [])
         kitWorld)
  = inr {| replaced := ["config.json"]; merged := []; added := []; skipped := [];
           errors := [] |}.
Proof. by vm_compute. Qed.

(** ** The visit of a single file *)








(** ** Failures *)









(** * Further properties *)

(** ** The deep merge: neutral documents, keys, paths *)













(** ** Invariants of the loops *)

Lemma expandedFiles_elem env patterns pattern files file :
  pattern ∈ patterns -> glob env pattern = inr files -> file ∈ files ->
  file ∈ expandedFiles env patterns.
Proof.
  intros Hp Hglob Hf. unfold expandedFiles.
  apply list_elem_of_In, in_concat. exists files. split; [|by apply list_elem_of_In].
  apply in_map_iff. exists pattern. rewrite Hglob. split; [done|by apply list_elem_of_In].
Qed.

Lemma expandedFiles_inv env patterns file :
  file ∈ expandedFiles env patterns ->
  exists pattern files,
    pattern ∈ patterns /\ glob env pattern = inr files /\ file ∈ files.
Proof.
  unfold expandedFiles. intros Hin.
  apply list_elem_of_In, in_concat in Hin as (files & Hfiles & Hf).
  apply in_map_iff in Hfiles as (pattern & Hglob & Hp).
  destruct (glob env pattern) as [err|files'] eqn:E; subst; [done|].
  exists pattern. eexists. by rewrite <- !list_elem_of_In in *.
Qed.

Section Invariant.
Variable env : Env.
Variable nt : list string.
Variables patternTag fileTag : string.
Variable action : string -> M unit.
Variable patterns : list string.
Variable I : State -> Prop.
Hypothesis I_kept : preserved env nt patternTag fileTag action patterns I.

Lemma processFile_invariant file st :
  file ∈ expandedFiles env patterns -> I st ->
  exists st',
    processFile env fileTag action nt file st = (inr tt, st') /\ I st'.
Proof.
  destruct I_kept as (_ & _ & I_protect & I_success & I_failure).
  intros Hin HI. unfold processFile, bind, processedFiles_has. cbn.
  case_bool_decide as Hclaimed; cbn.
  { by exists st. }
  fold (isProtected env nt file).
  destruct (isProtected env nt file) eqn:Hprot; cbn.
  { eexists. split; [reflexivity|]. by apply (I_protect st file). }
  unfold try_catch.
  destruct (action file st) as [[err|[]] st1] eqn:Hact.
  - eexists. split; [reflexivity|]. by apply (I_failure st st1 file err).
  - exists st1. split; [done|]. by apply (I_success st st1 file).
Qed.

Lemma processFiles_invariant files st :
  (forall file, file ∈ files -> file ∈ expandedFiles env patterns) -> I st ->
  exists st',
    for_of files (processFile env fileTag action nt) st = (inr tt, st') /\ I st'.
Proof.
  revert st. induction files as [|file files IH]; intros st Hsub HI; simpl.
  - by exists st.
  - destruct (processFile_invariant file st) as (st1 & H1 & HI1);
      [apply Hsub; by left|done|].
    destruct (IH st1) as (st2 & H2 & HI2); [intros f Hf; apply Hsub; by right|done|].
    exists st2. unfold bind. by rewrite H1.
Qed.

Lemma processPattern_invariant pattern st :
  pattern ∈ patterns -> I st ->
  exists st',
    processPattern env patternTag fileTag action nt pattern st = (inr tt, st') /\ I st'.
Proof.
  destruct I_kept as (I_failed & I_expanded & _).
  intros Hin HI. unfold processPattern, try_catch, bind, globFiles.
  destruct (glob env pattern) as [err|files] eqn:Hglob.
  - eexists. split; [reflexivity|]. by apply (I_failed st pattern err).
  - match goal with |- context [for_of _ _ ?s] => set (st0 := s) end.
    destruct (processFiles_invariant files st0) as (st1 & H1 & HI1).
    + intros file Hfile. by eapply expandedFiles_elem.
    + by apply (I_expanded st pattern files).
    + exists st1. by rewrite H1.
Qed.

Lemma processPatterns_invariant st :
  I st -> I (exec (processPatterns env patternTag fileTag action nt patterns) st).
Proof.
  assert (forall ps, (forall pattern, pattern ∈ ps -> pattern ∈ patterns) ->
            forall st0, I st0 ->
              exists st',
                processPatterns env patternTag fileTag action nt ps st0 = (inr tt, st')
                /\ I st') as Hloop.
  { unfold processPatterns.
    induction ps as [|pattern ps IH]; intros Hsub st0 HI; simpl.
    - by exists st0.
    - destruct (processPattern_invariant pattern st0) as (st1 & H1 & HI1);
        [apply Hsub; by left|done|].
      destruct (IH (fun q Hq => Hsub q (proj2 (elem_of_cons _ _ _) (or_intror Hq)))
                  st1 HI1) as (st2 & H2 & HI2).
      exists st2. unfold bind. by rewrite H1. }
  intros HI. destruct (Hloop patterns (fun _ H => H) st HI) as (st' & Hrun & HI').
  unfold exec. by rewrite Hrun.
Qed.
End Invariant.

(** ** What the recorded outcomes stand for *)

Lemma listed_record s where_ file r g :
  g ∈ listed s (record where_ file r) <-> g ∈ listed s r \/ (s = where_ /\ g = file).
Proof.
  destruct s, where_; cbn; rewrite ?elem_of_app, ?list_elem_of_singleton;
    split; intros H; try tauto; destruct H as [H|[H1 H2]]; try done; tauto.
Qed.

Lemma listed_recorded g r : g ∈ recorded r <-> exists s, g ∈ listed s r.
Proof.
  unfold recorded. rewrite !elem_of_app. split.
  - intros [H|[H|[H|H]]];
      [by exists InReplaced|by exists InMerged|by exists InAdded|by exists InSkipped].
  - intros [[] H]; cbn in H; tauto.
Qed.

Lemma stands_weaken env protected w g now now' (Q Q' : Prop) where_ :
  (Q' -> Q) -> now' = now ->
  stands env protected w g now Q where_ -> stands env protected w g now' Q' where_.
Proof.
  intros HQ ->. destruct where_; cbn.
  - done.
  - intros (cs & cd & incoming & existing & H1 & H2 & H3 & H4 & H5 & H6).
    exists cs, cd, incoming, existing. split_and!; try done. auto.
  - intros (H1 & H2 & H3). split_and!; try done. auto.
  - intros (H1 & H2). split; [done|]. auto.
Qed.

Lemma quiet_app g evs1 evs2 : quiet g (evs1 ++ evs2) <-> quiet g evs1 /\ quiet g evs2.
Proof. apply Forall_app. Qed.

Lemma quiet_other file g evs : Forall (concerns file) evs -> g <> file -> quiet g evs.
Proof.
  intros Hall Hne. eapply Forall_impl; [exact Hall|].
  intros ev [_ Hpath] [_ Hg]. congruence.
Qed.

Lemma quiet_successes g evs : failures evs = [] -> quiet g evs.
Proof.
  intros Hnone. apply Forall_forall. intros ev Hin _.
  destruct (ev_failure ev) as [err|] eqn:Herr; [|done].
  assert (ev ∈ failures evs) as Hfailed.
  { apply (list_elem_of_filter (fun ev => is_Some (ev_failure ev)) evs ev).
    split; [by rewrite Herr|done]. }
  rewrite Hnone in Hfailed. by apply elem_of_nil in Hfailed.
Qed.

Lemma quiet_failed file evs ev :
  Forall (concerns file) evs -> failures evs = [ev] -> ~ quiet file evs.
Proof.
  intros Hall Hfail Hquiet.
  assert (ev ∈ failures evs) as Hin by (rewrite Hfail; by left).
  apply (list_elem_of_filter (fun ev => is_Some (ev_failure ev)) evs ev) in Hin
    as [Hsome Hin].
  unfold quiet in Hquiet. rewrite Forall_forall in Hall, Hquiet.
  rewrite (Hquiet ev Hin (Hall ev Hin)) in Hsome. by destruct Hsome.
Qed.

Lemma quiet_glob g pattern failure : quiet g [globEvent pattern failure].
Proof. apply Forall_singleton. by intros [Hop _]. Qed.

Section Faithful.
Variable env : Env.
Variable protected : string -> bool.
Variable w : World.

Lemma faithful_initial : faithful env protected w (initial w).
Proof.
  split; [done|]. exists []. split; [by rewrite app_nil_r|].
  intros g. split; [|done]. intros [] Hin; by apply elem_of_nil in Hin.
Qed.

Lemma faithful_logged pattern failure st :
  faithful env protected w st ->
  faithful env protected w (set_world (logged (globEvent pattern failure) (world st)) st).
Proof.
  intros (Hsrc & evs & Hlog & Hg). split; [done|].
  exists (evs ++ [globEvent pattern failure]). cbn.
  split; [by rewrite Hlog, app_assoc|].
  intros g. destruct (Hg g) as [Hlisted Hfree]. split.
  - intros s Hin. destruct (Hlisted s Hin) as [Hcl Hst]. split; [done|].
    eapply stands_weaken; [|reflexivity|exact Hst]. by intros [? _]%quiet_app.
  - intros Hun [Hquiet _]%quiet_app. by apply Hfree.
Qed.

Lemma faithful_reported tag subject err st :
  faithful env protected w st -> faithful env protected w (reported tag subject err st).
Proof.
  intros (Hsrc & evs & Hlog & Hg). split; [done|]. exists evs. split; [done|].
  intros g. destruct (Hg g) as [Hlisted Hfree]. split; [|done].
  intros s Hin. apply Hlisted. by destruct s.
Qed.

Lemma faithful_claimedSkipped file st :
  file ∉ processedFiles st -> protected file = true ->
  faithful env protected w st -> faithful env protected w (claimedSkipped file st).
Proof.
  intros Hun Hprot (Hsrc & evs & Hlog & Hg). split; [done|]. exists evs. split; [done|].
  intros g. destruct (Hg g) as [Hlisted Hfree].
  cbn [claimedSkipped world processedFiles result]. split.
  - intros s Hin. apply listed_record in Hin as [Hold|[-> ->]].
    + destruct (Hlisted s Hold) as [Hcl Hst]. split; [|done].
      apply elem_of_union. by right.
    + split; [apply elem_of_union; left; by apply elem_of_singleton|].
      cbn. split; [by left|]. intros Hquiet.
      by apply (proj2 (Hg file)).
  - intros Hnew Hquiet. apply Hfree; [|done].
    intros Hcl. apply Hnew, elem_of_union. by right.
Qed.

Lemma faithful_success action allowed file st st' :
  action_spec action -> action_means env allowed action ->
  file ∉ processedFiles st -> action file st = (inr tt, st') ->
  faithful env protected w st -> faithful env protected w st'.
Proof.
  intros Hspec Hmeans Hun Hact (Hsrc & evs & Hlog & Hg).
  specialize (Hspec file st). rewrite Hact in Hspec.
  destruct Hspec as (where0 & evs1 & (Hsrc1 & Hother & Hlog1 & Hconc) & Hfail & Hproc & _).
  destruct (Hmeans file st st' Hact) as (where_ & _ & Hres & Hout).
  split; [congruence|]. exists (evs ++ evs1).
  split; [by rewrite Hlog1, Hlog, app_assoc|].
  assert (forall g, quiet g (evs ++ evs1) -> quiet g evs) as Hq
    by (by intros g [? _]%quiet_app).
  pose proof (proj2 (Hg file) Hun) as Hfile.
  intros g. destruct (Hg g) as [Hlisted Hfree]. split.
  - intros s Hin. rewrite Hres in Hin. apply listed_record in Hin as [Hold|[-> ->]].
    + destruct (Hlisted s Hold) as [Hcl Hst].
      split; [rewrite Hproc; apply elem_of_union; by right|].
      eapply stands_weaken; [apply Hq| |exact Hst].
      apply Hother. by intros ->.
    + split; [rewrite Hproc; apply elem_of_union; left; by apply elem_of_singleton|].
      clear Hlisted Hfree Hg.
      destruct where_; cbn in Hout |- *.
      * destruct Hout as (content & Hs & Hd).
        rewrite Hd, lookup_insert_eq, <- Hsrc, Hs. by split.
      * destruct Hout as (cs & cd & incoming & existing & Hjson & Hs & Hdd & Hp1 & Hp2 & Hd).
        exists cs, cd, incoming, existing. split_and!; try done.
        -- by rewrite <- Hsrc.
        -- by rewrite Hd, lookup_insert_eq.
        -- intros Hquiet. by rewrite <- (Hfile (Hq _ Hquiet)).
      * destruct Hout as (content & Hs & Hnone & Hd).
        rewrite Hd, lookup_insert_eq, <- Hsrc, Hs. split_and!; try done.
        intros Hquiet. by rewrite <- (Hfile (Hq _ Hquiet)).
      * destruct Hout as (Hsome & Hd). rewrite Hd. split; [by right|].
        intros Hquiet. exact (Hfile (Hq _ Hquiet)).
  - intros Hnew Hquiet.
    assert (g <> file) as Hne.
    { intros ->. apply Hnew. rewrite Hproc. apply elem_of_union. left.
      by apply elem_of_singleton. }
    rewrite (Hother g Hne). apply Hfree; [|by apply Hq].
    intros Hcl. apply Hnew. rewrite Hproc. apply elem_of_union. by right.
Qed.

Lemma faithful_failure action file st st' err :
  action_spec action ->
  file ∉ processedFiles st -> action file st = (inl err, st') ->
  faithful env protected w st -> faithful env protected w st'.
Proof.
  intros Hspec Hun Hact (Hsrc & evs & Hlog & Hg).
  specialize (Hspec file st). rewrite Hact in Hspec.
  destruct Hspec as (evs1 & ev & (Hsrc1 & Hother & Hlog1 & Hconc) & Hfail & _ & Hproc & Hres).
  split; [congruence|]. exists (evs ++ evs1).
  split; [by rewrite Hlog1, Hlog, app_assoc|].
  intros g. destruct (Hg g) as [Hlisted Hfree]. rewrite Hres, Hproc. split.
  - intros s Hin. destruct (Hlisted s Hin) as [Hcl Hst]. split; [done|].
    eapply stands_weaken; [|apply Hother|exact Hst].
    + by intros [? _]%quiet_app.
    + by intros ->.
  - intros Hnew [Hquiet Hquiet1]%quiet_app.
    destruct (decide (g = file)) as [->|Hne].
    + by destruct (quiet_failed file evs1 ev).
    + rewrite (Hother g Hne). by apply Hfree.
Qed.

End Faithful.

Lemma faithful_preserved env nt patternTag fileTag action allowed patterns w :
  action_spec action -> action_means env allowed action ->
  preserved env nt patternTag fileTag action patterns
    (faithful env (isProtected env nt) w).
Proof.
  intros Hspec Hmeans. split_and!.
  - intros st pattern err _ _ HI. by apply faithful_reported, faithful_logged.
  - intros st pattern files _ _ HI. by apply faithful_logged.
  - intros st file _ Hun Hprot HI. by apply faithful_claimedSkipped.
  - intros st st' file _ Hun _ Hact HI. by eapply faithful_success.
  - intros st st' file err _ Hun _ Hact HI.
    apply faithful_reported. by eapply faithful_failure.
Qed.

(** ** The category actions meet [action_means] *)

Section Meanings.
Variable env : Env.

Lemma replaceAction_means : action_means env onlyReplaced (replaceAction env).
Proof.
  intros file st st'.
  unfold replaceAction, bind, ensureDir, copy, push_replaced, processedFiles_add. cbn.
  repeat step_call env; intros Hact; simplify_eq.
  exists InReplaced. split_and!; [done..|]. cbn. eauto.
Qed.

Lemma mergeAction_means : action_means env notAdded (mergeAction env).
Proof.
  intros file st st'.
  unfold mergeAction, bind, pathExists, readJson, writeJson, ensureDir, copy,
    push_replaced, push_merged, push_skipped, processedFiles_add. cbn.
  destruct (dest_tree (world st) !! file) as [destText|] eqn:Hdest; cbn.
  - destruct (endsWith file ".json") eqn:Hjson; cbn.
    + rewrite ?Hdest.
      repeat step_call env; rewrite ?Hdest; cbn; intros Hact; simplify_eq.
      exists InMerged. split_and!; [done..|]. cbn.
      do 4 eexists. split_and!; eauto.
    + intros Hact; simplify_eq. exists InSkipped. split_and!; [done..|]. cbn.
      by rewrite Hdest.
  - repeat step_call env; intros Hact; simplify_eq.
    exists InReplaced. split_and!; [done..|]. cbn. eauto.
Qed.

Lemma addAction_means : action_means env addedOrSkipped (addAction env).
Proof.
  intros file st st'.
  unfold addAction, bind, pathExists, ensureDir, copy,
    push_added, push_skipped, processedFiles_add. cbn.
  destruct (dest_tree (world st) !! file) as [destText|] eqn:Hdest; cbn.
  - intros Hact; simplify_eq. exists InSkipped. split_and!; [done..|]. cbn.
    by rewrite Hdest.
  - repeat step_call env; intros Hact; simplify_eq.
    exists InAdded. split_and!; [done..|]. cbn. eauto.
Qed.

End Meanings.

(** ** The three loops of a run *)

Lemma run_loops env versionJson w :
  let protected := isProtected env (category neverTouch versionJson) in
  expansions env protected (category alwaysReplace versionJson)
    (initial w) (afterAlwaysReplace env versionJson w)
  /\ expansions env protected (category mergeIfChanged versionJson)
       (afterAlwaysReplace env versionJson w) (afterMergeIfChanged env versionJson w)
  /\ expansions env protected (category addOnly versionJson)
       (afterMergeIfChanged env versionJson w) (afterAddOnly env versionJson w)
  /\ applyFileCategories env versionJson w
     = (inr (result (afterAddOnly env versionJson w)),
        world (afterAddOnly env versionJson w)).
Proof.
  intros protected.
  unfold afterAddOnly, afterMergeIfChanged, afterAlwaysReplace.
  unfold processAlwaysReplace, processMergeIfChanged, processAddOnly.
  set (nt := category neverTouch versionJson).
  destruct (loop_expansions env nt "Failed to process pattern " "Failed to copy "
              (replaceAction env) (category alwaysReplace versionJson) (initial w)
              (replaceAction_spec env)) as [R1 E1].
  set (st1 := exec _ (initial w)) in *.
  destruct (loop_expansions env nt "Failed to process merge pattern " "Failed to merge "
              (mergeAction env) (category mergeIfChanged versionJson) st1
              (mergeAction_spec env)) as [R2 E2].
  set (st2 := exec _ st1) in *.
  destruct (loop_expansions env nt "Failed to process addOnly pattern " "Failed to add "
              (addAction env) (category addOnly versionJson) st2
              (addAction_spec env)) as [R3 E3].
  set (st3 := exec _ st2) in *.
  split_and!; try done.
  unfold applyFileCategories, categoryLoops, bind.
  unfold processAlwaysReplace, processMergeIfChanged, processAddOnly.
  fold nt. by rewrite R1, R2, R3.
Qed.

Lemma run_invariant env versionJson w (I : State -> Prop) :
  let nt := category neverTouch versionJson in
  preserved env nt "Failed to process pattern " "Failed to copy "
    (replaceAction env) (category alwaysReplace versionJson) I ->
  preserved env nt "Failed to process merge pattern " "Failed to merge "
    (mergeAction env) (category mergeIfChanged versionJson) I ->
  preserved env nt "Failed to process addOnly pattern " "Failed to add "
    (addAction env) (category addOnly versionJson) I ->
  I (initial w) -> I (afterAddOnly env versionJson w).
Proof.
  intros nt H1 H2 H3 HI.
  unfold afterAddOnly, afterMergeIfChanged, afterAlwaysReplace.
  apply (processPatterns_invariant _ _ _ _ _ _ _ H3).
  apply (processPatterns_invariant _ _ _ _ _ _ _ H2).
  by apply (processPatterns_invariant _ _ _ _ _ _ _ H1).
Qed.

Lemma run_faithful env versionJson w :
  faithful env (isProtected env (category neverTouch versionJson)) w
    (afterAddOnly env versionJson w).
Proof.
  apply run_invariant.
  - eapply faithful_preserved; [apply replaceAction_spec|apply replaceAction_means].
  - eapply faithful_preserved; [apply mergeAction_spec|apply mergeAction_means].
  - eapply faithful_preserved; [apply addAction_spec|apply addAction_means].
  - apply faithful_initial.
Qed.

(** When a stretch of the loops adds no error, none of its calls failed. *)
Lemma progress_no_failures protected st st' evs :
  progress protected st st' ->
  errors (result st') = errors (result st) ->
  io_log (world st') = io_log (world st) ++ evs ->
  failures evs = [].
Proof.
  intros [evs0 errs nr nm na ns _ _ Hlog Herrs Hrep _ _ _ _ _ _ _] Hsame Hevs.
  rewrite Hlog in Hevs. apply app_inv_head in Hevs as <-.
  assert (errs = []) as ->.
  { apply (app_inv_head (errors (result st))). rewrite app_nil_r. congruence. }
  by apply Forall2_nil_inv_r in Hrep.
Qed.

(** Every file of the expansions is claimed when no error was added. *)
Lemma expansions_covered env protected patterns st st' f :
  expansions env protected patterns st st' ->
  errors (result st') = errors (result st) ->
  f ∈ expandedFiles env patterns -> f ∈ processedFiles st'.
Proof.
  intros Hexp Hsame (pattern & files & Hp & Hglob & Hf)%expandedFiles_inv.
  destruct (expansions_settled env protected patterns st st' Hexp pattern files f
              Hp Hglob Hf) as [Hcl|(evs & ev & Hlog & Hfailed & _)]; [done|].
  rewrite (progress_no_failures protected st st' evs) in Hfailed;
    [by apply elem_of_nil in Hfailed| |done..].
  by eapply expansions_progress.
Qed.

Lemma expandedFiles_app env l1 l2 :
  expandedFiles env (l1 ++ l2) = expandedFiles env l1 ++ expandedFiles env l2.
Proof. unfold expandedFiles. by rewrite map_app, concat_app. Qed.

Lemma run_all_expansions env versionJson w :
  expansions env (isProtected env (category neverTouch versionJson))
    (allPatterns versionJson) (initial w) (afterAddOnly env versionJson w).
Proof.
  destruct (run_loops env versionJson w) as (E1 & E2 & E3 & _).
  unfold allPatterns. eapply expansions_app; [exact E1|].
  eapply expansions_app; [exact E2|exact E3].
Qed.

Lemma run_whole_progress env versionJson w :
  progress (isProtected env (category neverTouch versionJson))
    (initial w) (afterAddOnly env versionJson w).
Proof. eapply expansions_progress, run_all_expansions. Qed.

Lemma run_balanced env versionJson w : balanced (afterAddOnly env versionJson w).
Proof.
  eapply progress_balanced; [apply run_whole_progress|apply initial_balanced].
Qed.

Lemma run_quiet env versionJson w evs f :
  io_log (world (afterAddOnly env versionJson w)) = io_log w ++ evs ->
  errors (result (afterAddOnly env versionJson w)) = [] ->
  quiet f evs.
Proof.
  intros Hlog Hnone. apply quiet_successes.
  by eapply progress_no_failures; [apply run_whole_progress|..].
Qed.

(** ** What a run reports is what it did *)

(** X5: what a run reports as replaced or added is a copy of the source
    file when the run ends: the source holds the file, and the destination
    holds the same content, whatever failed elsewhere or earlier. *)
Theorem copies_hold_source env versionJson w :
  exists r w',
    applyFileCategories env versionJson w = (inr r, w')
    /\ forall f, f ∈ replaced r \/ f ∈ added r ->
         is_Some (source_tree w !! f)
         /\ dest_tree w' !! f = source_tree w !! f.
Proof.
  destruct (run_loops env versionJson w) as (_ & _ & _ & Hrun).
  destruct (run_faithful env versionJson w) as (_ & evs & _ & Hg).
  do 2 eexists. split; [exact Hrun|]. intros f [Hin|Hin].
  - by destruct (proj1 (Hg f) InReplaced Hin) as [_ [Hsome Hnow]].
  - by destruct (proj1 (Hg f) InAdded Hin) as [_ (Hsome & Hnow & _)].
Qed.

(** X6: a file a run reports as skipped holds, when the run ends, what it
    held when the run began, unless a call on this very file failed during
    the run; after a run without errors every skipped file is as it was. *)
Theorem skipped_files_preserved env versionJson w :
  exists r w' evs,
    applyFileCategories env versionJson w = (inr r, w')
    /\ io_log w' = io_log w ++ evs
    /\ (forall f, f ∈ skipped r -> quiet f evs ->
                  dest_tree w' !! f = dest_tree w !! f)
    /\ (errors r = [] ->
        forall f, f ∈ skipped r -> dest_tree w' !! f = dest_tree w !! f).
Proof.
  destruct (run_loops env versionJson w) as (_ & _ & _ & Hrun).
  destruct (run_faithful env versionJson w) as (_ & evs & Hlog & Hg).
  do 2 eexists. exists evs. split_and!; [exact Hrun|exact Hlog| |].
  - intros f Hin Hquiet.
    destruct (proj1 (Hg f) InSkipped Hin) as [_ [_ Hsame]]. by apply Hsame.
  - intros Hnone f Hin.
    destruct (proj1 (Hg f) InSkipped Hin) as [_ [_ Hsame]].
    apply Hsame. by eapply run_quiet.
Qed.


Lemma run_held env versionJson w f :
  errors (result (afterAddOnly env versionJson w)) = [] ->
  f ∈ expandedFiles env (allPatterns versionJson) ->
  isProtected env (category neverTouch versionJson) f = false ->
  f ∈ recorded (result (afterAddOnly env versionJson w))
  /\ is_Some (dest_tree (world (afterAddOnly env versionJson w)) !! f).
Proof.
  intros Hnone Hin Hfree.
  destruct (run_faithful env versionJson w) as (_ & evs & Hlog & Hg).
  assert (f ∈ recorded (result (afterAddOnly env versionJson w))) as Hrec.
  { apply (balanced_claimed _ _ (run_balanced env versionJson w)).
    eapply expansions_covered; [apply run_all_expansions|by rewrite Hnone|done]. }
  split; [done|].
  apply listed_recorded in Hrec as [s Hs].
  destruct (proj1 (Hg f) s Hs) as [_ Hst]. destruct s; cbn in Hst.
  - destruct Hst as [Hsome ->]. done.
  - destruct Hst as (cs & cd & incoming & existing & _ & _ & _ & _ & -> & _). done.
  - destruct Hst as (Hsome & -> & _). done.
  - destruct Hst as [[Hprot|Hsome] _]; [congruence|done].
Qed.

(** X8: after a run without errors, every file that the expansion of a
    pattern of the manifest yields and that is not protected has an outcome
    and exists below the destination. *)
Theorem errorless_run_delivers env versionJson w :
  exists r w',
    applyFileCategories env versionJson w = (inr r, w')
    /\ (errors r = [] ->
        forall f, f ∈ expandedFiles env (allPatterns versionJson) ->
                  isProtected env (category neverTouch versionJson) f = false ->
                  f ∈ recorded r /\ is_Some (dest_tree w' !! f)).
Proof.
  destruct (run_loops env versionJson w) as (_ & _ & _ & Hrun).
  do 2 eexists. split; [exact Hrun|]. intros Hnone f Hin Hfree.
  by apply run_held.
Qed.

(** ** Which files a loop claims, and with which outcomes *)

Lemma listed_with_error s message r : listed s (with_error message r) = listed s r.
Proof. by destruct s. Qed.

Lemma loop_outcomes env nt patternTag fileTag action allowed patterns st0 :
  action_spec action -> action_means env allowed action ->
  let st' := exec (processPatterns env patternTag fileTag action nt patterns) st0 in
  forall g,
    g ∈ processedFiles st' -> g ∉ processedFiles st0 ->
    isProtected env nt g = false ->
    exists where_, allowed where_ = true /\ g ∈ listed where_ (result st').
Proof.
  intros Hspec Hmeans.
  apply (processPatterns_invariant env nt patternTag fileTag action patterns
           (fun st => forall g,
              g ∈ processedFiles st -> g ∉ processedFiles st0 ->
              isProtected env nt g = false ->
              exists where_, allowed where_ = true /\ g ∈ listed where_ (result st)));
    [|by intros g Hin Hout].
  split_and!.
  - intros st pattern err _ _ HI g Hcl Hnew Hfree.
    destruct (HI g Hcl Hnew Hfree) as (s & Hs & Hin). exists s. split; [done|].
    unfold reported. cbn. by rewrite listed_with_error.
  - intros st pattern files _ _ HI. exact HI.
  - intros st file _ Hun Hprot HI g Hcl Hnew Hfree. cbn in Hcl.
    apply elem_of_union in Hcl as [->%elem_of_singleton|Hcl]; [congruence|].
    destruct (HI g Hcl Hnew Hfree) as (s & Hs & Hin). exists s. split; [done|].
    cbn [claimedSkipped result]. apply listed_record. by left.
  - intros st st' file _ Hun Hprot Hact HI g Hcl Hnew Hfree.
    pose proof (Hspec file st) as Hs. rewrite Hact in Hs.
    destruct Hs as (where0 & evs1 & _ & _ & Hproc & _).
    destruct (Hmeans file st st' Hact) as (where_ & Hallowed & Hres & _).
    rewrite Hproc in Hcl. rewrite Hres.
    apply elem_of_union in Hcl as [->%elem_of_singleton|Hcl].
    + exists where_. split; [done|]. apply listed_record. by right.
    + destruct (HI g Hcl Hnew Hfree) as (s & Hs & Hin). exists s. split; [done|].
      apply listed_record. by left.
  - intros st st' file err _ Hun Hprot Hact HI g Hcl Hnew Hfree.
    pose proof (Hspec file st) as Hs. rewrite Hact in Hs.
    destruct Hs as (evs1 & ev & _ & _ & _ & Hproc & Hres).
    unfold reported in *. cbn in Hcl |- *. rewrite Hproc in Hcl.
    destruct (HI g Hcl Hnew Hfree) as (s & Hs & Hin). exists s. split; [done|].
    by rewrite listed_with_error, Hres.
Qed.

(** A file that no expansion of the loop's patterns yields is left alone by
    the loop: not claimed, not called upon, not changed. *)
Lemma loop_outside env nt patternTag fileTag action patterns w f :
  action_spec action -> f ∉ expandedFiles env patterns ->
  preserved env nt patternTag fileTag action patterns
    (fun st => (f ∉ processedFiles st)
               /\ dest_tree (world st) !! f = dest_tree w !! f
               /\ exists evs, io_log (world st) = io_log w ++ evs
                              /\ Forall (fun ev => ~ concerns f ev) evs).
Proof.
  intros Hspec Hout.
  assert (forall st pattern failure evs,
            io_log (world st) = io_log w ++ evs ->
            Forall (fun ev => ~ concerns f ev) evs ->
            exists evs', io_log (world st) ++ [globEvent pattern failure]
                         = io_log w ++ evs'
                         /\ Forall (fun ev => ~ concerns f ev) evs') as Hglob.
  { intros st pattern failure evs Hlog Hall. exists (evs ++ [globEvent pattern failure]).
    split; [by rewrite Hlog, app_assoc|].
    apply Forall_app. split; [done|]. apply Forall_singleton. by intros [Hop _]. }
  assert (forall st st' file evs evs1,
            file ∈ expandedFiles env patterns ->
            io_log (world st) = io_log w ++ evs ->
            Forall (fun ev => ~ concerns f ev) evs ->
            file_calls file (world st) (world st') evs1 ->
            exists evs', io_log (world st') = io_log w ++ evs'
                         /\ Forall (fun ev => ~ concerns f ev) evs') as Hcalls.
  { intros st st' file evs evs1 Hin Hlog Hall (_ & _ & Hlog1 & Hconc).
    exists (evs ++ evs1). split; [by rewrite Hlog1, Hlog, app_assoc|].
    apply Forall_app. split; [done|]. eapply Forall_impl; [exact Hconc|].
    intros ev [_ Hpath] [_ Hf]. apply Hout. congruence. }
  split_and!.
  - intros st pattern err _ _ (Hun & Hdest & evs & Hlog & Hall).
    split_and!; [done..|]. by eapply Hglob.
  - intros st pattern files _ _ (Hun & Hdest & evs & Hlog & Hall).
    split_and!; [done..|]. by eapply Hglob.
  - intros st file Hin _ _ (Hun & Hdest & evs & Hlog & Hall).
    split_and!; [|done|by exists evs]. cbn.
    intros [->%elem_of_singleton|Hcl]%elem_of_union; done.
  - intros st st' file Hin _ _ Hact (Hun & Hdest & evs & Hlog & Hall).
    pose proof (Hspec file st) as Hs. rewrite Hact in Hs.
    destruct Hs as (where0 & evs1 & Hfc & _ & Hproc & _).
    split_and!.
    + rewrite Hproc. intros [->%elem_of_singleton|Hcl]%elem_of_union; done.
    + destruct Hfc as (_ & Hother & _). rewrite Hother; [done|]. by intros ->.
    + by eapply Hcalls.
  - intros st st' file err Hin _ _ Hact (Hun & Hdest & evs & Hlog & Hall).
    pose proof (Hspec file st) as Hs. rewrite Hact in Hs.
    destruct Hs as (evs1 & ev & Hfc & _ & _ & Hproc & _).
    unfold reported. cbn. split_and!.
    + by rewrite Hproc.
    + destruct Hfc as (_ & Hother & _). rewrite Hother; [done|]. by intros ->.
    + by eapply Hcalls.
Qed.

(** ** The categories, seen from a whole run *)

Lemma progress_errors_before protected st st' :
  progress protected st st' -> errors (result st') = [] -> errors (result st) = [].
Proof.
  intros [evs errs nr nm na ns _ _ _ Herrs _ _ _ _ _ _ _ _] Hnone.
  rewrite Herrs in Hnone. by apply app_eq_nil in Hnone as [? _].
Qed.

Lemma progress_listed protected st st' s g :
  progress protected st st' -> g ∈ listed s (result st) -> g ∈ listed s (result st').
Proof.
  intros [evs errs nr nm na ns _ _ _ _ _ Hr Hm Ha Hs _ _ _] Hin.
  destruct s; cbn in *; rewrite ?Hr, ?Hm, ?Ha, ?Hs; apply elem_of_app; by left.
Qed.

(** X9: after a run without errors, every file that the expansion of an
    [alwaysReplace] pattern yields and that is not protected is reported as
    replaced, and the destination holds the content of the source file. *)
Theorem alwaysReplace_delivers env versionJson w :
  exists r w',
    applyFileCategories env versionJson w = (inr r, w')
    /\ (errors r = [] ->
        forall f, f ∈ expandedFiles env (category alwaysReplace versionJson) ->
                  isProtected env (category neverTouch versionJson) f = false ->
                  f ∈ replaced r
                  /\ is_Some (source_tree w !! f)
                  /\ dest_tree w' !! f = source_tree w !! f).
Proof.
  destruct (run_loops env versionJson w) as (E1 & E2 & E3 & Hrun).
  destruct (run_faithful env versionJson w) as (_ & evs & Hlog & Hg).
  do 2 eexists. split; [exact Hrun|]. intros Hnone f Hin Hfree.
  set (protected := isProtected env (category neverTouch versionJson)) in *.
  assert (progress protected (afterAlwaysReplace env versionJson w)
            (afterAddOnly env versionJson w)) as Hrest.
  { eapply progress_trans; eapply expansions_progress; eassumption. }
  assert (f ∈ processedFiles (afterAlwaysReplace env versionJson w)) as Hcl.
  { eapply expansions_covered; [exact E1| |done].
    by rewrite (progress_errors_before _ _ _ Hrest Hnone). }
  assert (f ∈ replaced (result (afterAddOnly env versionJson w))) as Hrep.
  { apply (progress_listed _ _ _ InReplaced f Hrest).
    destruct (loop_outcomes env (category neverTouch versionJson)
                "Failed to process pattern " "Failed to copy " (replaceAction env)
                onlyReplaced (category alwaysReplace versionJson) (initial w)
                (replaceAction_spec env) (replaceAction_means env) f Hcl
                (not_elem_of_empty _) Hfree) as ([] & Hallowed & Hlisted); done. }
  split; [done|]. by destruct (proj1 (Hg f) InReplaced Hrep) as [_ [Hsome Hnow]].
Qed.

(** X10: after a run without errors, a file that only the expansion of an
    [addOnly] pattern yields and that is not protected was copied from the
    source and is reported as added when the destination did not hold it,
    and is as it was and reported as skipped when the destination held it. *)
Theorem addOnly_adds_missing env versionJson w f :
  f ∈ expandedFiles env (category addOnly versionJson) ->
  f ∉ expandedFiles env (category alwaysReplace versionJson) ->
  f ∉ expandedFiles env (category mergeIfChanged versionJson) ->
  isProtected env (category neverTouch versionJson) f = false ->
  exists r w',
    applyFileCategories env versionJson w = (inr r, w')
    /\ (errors r = [] ->
        (dest_tree w !! f = None ->
         f ∈ added r
         /\ is_Some (source_tree w !! f)
         /\ dest_tree w' !! f = source_tree w !! f)
        /\ (is_Some (dest_tree w !! f) ->
            f ∈ skipped r /\ dest_tree w' !! f = dest_tree w !! f)).
Proof.
  intros Hin Hout1 Hout2 Hfree.
  destruct (run_loops env versionJson w) as (E1 & E2 & E3 & Hrun).
  destruct (run_faithful env versionJson w) as (_ & evs & Hlog & Hg).
  do 2 eexists. split; [exact Hrun|]. intros Hnone.
  set (nt := category neverTouch versionJson) in *.
  assert (f ∉ processedFiles (afterMergeIfChanged env versionJson w)) as Hun.
  { unfold afterMergeIfChanged, afterAlwaysReplace.
    eapply (processPatterns_invariant _ _ _ _ _ _ _
              (loop_outside env nt _ _ _ _ w f (mergeAction_spec env) Hout2)).
    eapply (processPatterns_invariant _ _ _ _ _ _ _
              (loop_outside env nt _ _ _ _ w f (replaceAction_spec env) Hout1)).
    split_and!; [apply not_elem_of_empty|done|].
    exists []. by rewrite app_nil_r. }
  assert (f ∈ processedFiles (afterAddOnly env versionJson w)) as Hcl.
  { eapply expansions_covered; [exact E3| |done]. rewrite Hnone. symmetry.
    eapply progress_errors_before; [|exact Hnone].
    eapply expansions_progress. exact E3. }
  destruct (loop_outcomes env nt
              "Failed to process addOnly pattern " "Failed to add " (addAction env)
              addedOrSkipped (category addOnly versionJson)
              (afterMergeIfChanged env versionJson w)
              (addAction_spec env) (addAction_means env) f Hcl Hun Hfree)
    as (s & Hallowed & Hlisted).
  pose proof (run_quiet env versionJson w evs f Hlog Hnone) as Hquiet.
  destruct (proj1 (Hg f) s Hlisted) as [_ Hst].
  destruct s; try done; cbn in Hst.
  - destruct Hst as (Hsome & Hnow & Hmissing). split.
    + by intros _.
    + intros Hheld. rewrite (Hmissing Hquiet) in Hheld. by destruct Hheld.
  - destruct Hst as ([Hprot|Hheld] & Hsame); [congruence|].
    specialize (Hsame Hquiet). split.
    + intros Hmissing. rewrite Hsame, Hmissing in Hheld. by destruct Hheld.
    + by intros _.
Qed.

Ltac by_compute := apply (bool_decide_unpack _); vm_compute; exact I.

(** The result of a concrete run, read off the equation that states it. *)
Ltac run_result Hrun r :=
  match type of Hrun with
  | ?run = (inr r, _) =>
      let Hr := fresh "Hr" in
      assert (Hr : fst run = inr r) by (by rewrite Hrun);
      vm_compute in Hr; injection Hr as <-
  end.

Lemma addOnly_adds_missing_witness :
  dest_tree (snd (applyFileCategories kitEnv starterManifest kitWorld)) !! "notes.txt"
  = Some "notes".
Proof.
  destruct (addOnly_adds_missing kitEnv starterManifest kitWorld "notes.txt")
    as (r & w' & Hrun & Hadded); [by_compute|by_compute|by_compute|reflexivity|].
  rewrite Hrun. cbn [snd]. run_result Hrun r.
  destruct (Hadded eq_refl) as [Hmissing _].
  destruct (Hmissing eq_refl) as (_ & _ & ->). reflexivity.
Defined.

(** ** A second run *)

Lemma addAction_existing env file st :
  is_Some (dest_tree (world st) !! file) ->
  addAction env file st = (inr tt, claimedSkipped file st).
Proof.
  intros [content Hheld].
  unfold addAction, bind, pathExists, push_skipped, processedFiles_add. cbn.
  by rewrite Hheld.
Qed.

Lemma errorless_globs env protected patterns st st' pattern :
  expansions env protected patterns st st' ->
  errors (result st') = errors (result st) ->
  pattern ∈ patterns -> exists files, glob env pattern = inr files.
Proof.
  intros Hexp Hsame Hin.
  destruct (glob env pattern) as [err|files] eqn:Hglob; [|by exists files].
  destruct (expansions_reported env protected patterns st st' Hexp pattern err Hin Hglob)
    as (evs & Hlog & Hev).
  assert (globEvent pattern (Some err) ∈ failures evs) as Hfailed.
  { apply (list_elem_of_filter (fun ev => is_Some (ev_failure ev)) evs). by split. }
  rewrite (progress_no_failures protected st st' evs) in Hfailed;
    [by apply elem_of_nil in Hfailed| |done..].
  by eapply expansions_progress.
Qed.

Lemma run_of_addOnly env versionJson w :
  category alwaysReplace versionJson = [] ->
  category mergeIfChanged versionJson = [] ->
  afterMergeIfChanged env versionJson w = initial w
  /\ allPatterns versionJson = category addOnly versionJson.
Proof.
  intros H1 H2. unfold afterMergeIfChanged, afterAlwaysReplace, allPatterns.
  by rewrite H1, H2.
Qed.

(** X11: a manifest of [addOnly] patterns alone, run a second time on what
    a first run without errors has left, reports every file of its
    expansions as skipped and nothing else, and leaves the destination tree
    as the first run left it. *)
Theorem addOnly_second_run env versionJson w :
  category alwaysReplace versionJson = [] ->
  category mergeIfChanged versionJson = [] ->
  exists r1 w1 r2 w2,
    applyFileCategories env versionJson w = (inr r1, w1)
    /\ applyFileCategories env versionJson w1 = (inr r2, w2)
    /\ (errors r1 = [] ->
        dest_tree w2 = dest_tree w1
        /\ replaced r2 = [] /\ merged r2 = [] /\ added r2 = [] /\ errors r2 = []
        /\ forall f, f ∈ skipped r2
                     <-> f ∈ expandedFiles env (category addOnly versionJson)).
Proof.
  intros Hnone1 Hnone2.
  set (nt := category neverTouch versionJson).
  set (st1 := afterAddOnly env versionJson w).
  set (st2 := afterAddOnly env versionJson (world st1)).
  exists (result st1), (world st1), (result st2), (world st2).
  split; [apply run_loops|]. split; [apply run_loops|]. intros Herrs.
  destruct (run_of_addOnly env versionJson w Hnone1 Hnone2) as [Hstart Hall].
  destruct (run_of_addOnly env versionJson (world st1) Hnone1 Hnone2) as [Hstart2 _].
  assert (preserved env nt "Failed to process addOnly pattern " "Failed to add "
            (addAction env) (category addOnly versionJson)
            (fun st => dest_tree (world st) = dest_tree (world st1)
                       /\ replaced (result st) = [] /\ merged (result st) = []
                       /\ added (result st) = [] /\ errors (result st) = []))
    as Hkept.
  { assert (forall st file,
              file ∈ expandedFiles env (category addOnly versionJson) ->
              isProtected env nt file = false ->
              dest_tree (world st) = dest_tree (world st1) ->
              addAction env file st = (inr tt, claimedSkipped file st)) as Hskip.
    { intros st file Hin Hfree Hdest. apply addAction_existing. rewrite Hdest.
      apply run_held; [done|by rewrite Hall|done]. }
    split_and!.
    - intros st pattern err Hin Hglob _.
      destruct (errorless_globs env (isProtected env nt) _ _ _ pattern
                  (run_all_expansions env versionJson w)) as [files Hfiles];
        [exact Herrs|by rewrite Hall|congruence].
    - by intros st pattern files _ _ HI.
    - by intros st file _ _ _ HI.
    - intros st st' file Hin _ Hfree Hact (Hdest & HI).
      rewrite (Hskip st file Hin Hfree Hdest) in Hact. by simplify_eq.
    - intros st st' file err Hin _ Hfree Hact (Hdest & HI).
      rewrite (Hskip st file Hin Hfree Hdest) in Hact. by simplify_eq. }
  assert (dest_tree (world st2) = dest_tree (world st1)
          /\ replaced (result st2) = [] /\ merged (result st2) = []
          /\ added (result st2) = [] /\ errors (result st2) = [])
    as (Hdest & Hr & Hm & Ha & He).
  { unfold st2, afterAddOnly. rewrite Hstart2.
    by apply (processPatterns_invariant _ _ _ _ _ _ _ Hkept). }
  split_and!; try done. intros f. split.
  - intros Hin. destruct (decide (f ∈ expandedFiles env (category addOnly versionJson)))
      as [|Hout]; [done|]. exfalso.
    assert (f ∈ processedFiles st2) as Hcl.
    { apply (balanced_claimed _ _ (run_balanced env versionJson (world st1))).
      apply listed_recorded. by exists InSkipped. }
    revert Hcl. unfold st2, afterAddOnly. rewrite Hstart2.
    eapply (processPatterns_invariant _ _ _ _ _ _ _
              (loop_outside env nt _ _ _ _ (world st1) f (addAction_spec env) Hout)).
    split_and!; [apply not_elem_of_empty|done|].
    exists []. by rewrite app_nil_r.
  - intros Hin.
    assert (f ∈ recorded (result st2)) as Hrec.
    { apply (balanced_claimed _ _ (run_balanced env versionJson (world st1))).
      eapply expansions_covered;
        [apply run_all_expansions|exact He|by rewrite Hall]. }
    apply listed_recorded in Hrec as [[] Hs]; cbn in Hs;
      rewrite ?Hr, ?Hm, ?Ha in Hs; try by apply elem_of_nil in Hs.
    done.
Qed.

Lemma addOnly_second_run_witness :
  dest_tree (snd (applyFileCategories kitEnv seedManifest
                    (snd (applyFileCategories kitEnv seedManifest kitWorld))))
  = dest_tree (snd (applyFileCategories kitEnv seedManifest kitWorld)).
Proof.
  destruct (addOnly_second_run kitEnv seedManifest kitWorld eq_refl eq_refl)
    as (r1 & w1 & r2 & w2 & Hrun1 & Hrun2 & Hsecond).
  rewrite Hrun1. cbn [snd]. rewrite Hrun2. cbn [snd]. run_result Hrun1 r1.
  by destruct (Hsecond eq_refl) as [-> _].
Defined.

(** ** What a run leaves alone *)

(** X12: a run never changes the source tree, and a path that no expansion
    of a pattern of the manifest yields is left alone: the run makes no call
    on it, leaves what the destination holds for it, and gives it no
    outcome. *)
Theorem untouched_outside_expansions env versionJson w :
  exists r w' evs,
    applyFileCategories env versionJson w = (inr r, w')
    /\ source_tree w' = source_tree w
    /\ io_log w' = io_log w ++ evs
    /\ forall f, f ∉ expandedFiles env (allPatterns versionJson) ->
         dest_tree w' !! f = dest_tree w !! f
         /\ Forall (fun ev => ~ concerns f ev) evs
         /\ f ∉ recorded r.
Proof.
  destruct (run_loops env versionJson w) as (_ & _ & _ & Hrun).
  destruct (run_faithful env versionJson w) as (Hsrc & evs & Hlog & _).
  do 2 eexists. exists evs. split_and!; [exact Hrun|exact Hsrc|exact Hlog|].
  intros f Hout. unfold allPatterns in Hout. rewrite !expandedFiles_app in Hout.
  assert ((f ∉ processedFiles (afterAddOnly env versionJson w))
          /\ dest_tree (world (afterAddOnly env versionJson w)) !! f = dest_tree w !! f
          /\ exists evs', io_log (world (afterAddOnly env versionJson w))
                          = io_log w ++ evs'
                          /\ Forall (fun ev => ~ concerns f ev) evs')
    as (Hun & Hdest & evs' & Hlog' & Hall).
  { apply run_invariant.
    - apply loop_outside; [apply replaceAction_spec|].
      intros Hin. apply Hout, elem_of_app. by left.
    - apply loop_outside; [apply mergeAction_spec|].
      intros Hin. apply Hout, elem_of_app. right. apply elem_of_app. by left.
    - apply loop_outside; [apply addAction_spec|].
      intros Hin. apply Hout, elem_of_app. right. apply elem_of_app. by right.
    - split_and!; [apply not_elem_of_empty|done|]. exists []. by rewrite app_nil_r. }
  rewrite Hlog in Hlog'. apply app_inv_head in Hlog' as <-.
  split_and!; [done..|].
  intros Hrec. by apply (balanced_claimed _ _ (run_balanced env versionJson w)) in Hrec.
Qed.

(** X13: a run makes no call at all and returns the empty result exactly
    when the manifest lists no pattern to expand, be it that
    [fileCategories] is missing, that its lists are, or that they are empty;
    [neverTouch] patterns alone do nothing. *)
Theorem run_without_patterns env versionJson w :
  applyFileCategories env versionJson w = (inr emptyResult, w)
  <-> allPatterns versionJson = [].
Proof.
  split.
  - intros Hrun.
    pose proof (expansions_expanded env _ _ _ _ (run_all_expansions env versionJson w))
      as Hexp.
    destruct (run_loops env versionJson w) as (_ & _ & _ & Hrun').
    rewrite Hrun in Hrun'. injection Hrun' as _ Hw. rewrite <- Hw in Hexp. cbn in Hexp.
    apply (app_inv_head (expandedPatterns (io_log w))). by rewrite app_nil_r.
  - unfold allPatterns. intros (H1 & (H2 & H3)%app_eq_nil)%app_eq_nil.
    unfold applyFileCategories, categoryLoops, bind,
      processAlwaysReplace, processMergeIfChanged, processAddOnly.
    rewrite H1, H2, H3. cbn. by destruct w.
Qed.

(** X14: when the patterns of the manifest match no file of the source,
    that is, when every expansion is empty, a run returns the empty result,
    without errors, and leaves both trees as they are. *)
Theorem run_without_matches env versionJson w :
  (forall pattern, pattern ∈ allPatterns versionJson -> glob env pattern = inr []) ->
  exists w',
    applyFileCategories env versionJson w = (inr emptyResult, w')
    /\ dest_tree w' = dest_tree w
    /\ source_tree w' = source_tree w.
Proof.
  intros Hempty.
  destruct (run_loops env versionJson w) as (_ & _ & _ & Hrun).
  assert (forall patternTag fileTag action patterns,
            (forall pattern, pattern ∈ patterns -> pattern ∈ allPatterns versionJson) ->
            preserved env (category neverTouch versionJson) patternTag fileTag action
              patterns
              (fun st => result st = emptyResult
                         /\ dest_tree (world st) = dest_tree w
                         /\ source_tree (world st) = source_tree w)) as Hkept.
  { intros patternTag fileTag action patterns Hsub.
    assert (forall file, file ∉ expandedFiles env patterns) as Hnone.
    { intros file (pattern & files & Hp & Hglob & Hf)%expandedFiles_inv.
      rewrite (Hempty pattern (Hsub _ Hp)) in Hglob. simplify_eq.
      by apply elem_of_nil in Hf. }
    split_and!.
    - intros st pattern err Hp Hglob _. rewrite (Hempty pattern (Hsub _ Hp)) in Hglob.
      done.
    - by intros st pattern files _ _ HI.
    - intros st file Hin. by destruct (Hnone file).
    - intros st st' file Hin. by destruct (Hnone file).
    - intros st st' file err Hin. by destruct (Hnone file). }
  assert (result (afterAddOnly env versionJson w) = emptyResult
          /\ dest_tree (world (afterAddOnly env versionJson w)) = dest_tree w
          /\ source_tree (world (afterAddOnly env versionJson w)) = source_tree w)
    as (Hres & Hdest & Hsrc).
  { apply run_invariant; [apply Hkept..|done]; unfold allPatterns; intros pattern Hp;
      rewrite !elem_of_app; tauto. }
  eexists. rewrite Hrun, Hres. done.
Qed.

Lemma run_without_matches_witness :
  exists w',
    applyFileCategories kitEnv strayManifest kitWorld = (inr emptyResult, w')
    /\ dest_tree w' = dest_tree kitWorld
    /\ source_tree w' = source_tree kitWorld.
Proof.
  apply run_without_matches. intros pattern Hin.
  assert (pattern ∈ ["LICENSE"; "settings/**"; "CHANGELOG.md"]) as Hcases by exact Hin.
  repeat (apply elem_of_cons in Hcases; destruct Hcases as [Heq|Hcases];
          [by subst|]).
  by apply elem_of_nil in Hcases.
Defined.

(** ** The messages of a run *)


(** ** The manifest *)



(** ** The git backup *)

(** X17: [createGitBackup] never throws.  It always stages first, then asks
    for the staged changes, and starts the commit, with the message as one
    argument, only after [git diff --cached --quiet] has exited with
    something else than 0; it says that a backup was made exactly when it
    started the commit and the commit exited with 0. *)
Theorem createGitBackup_outcome proc dirPath message calls :
  let add := Git.stage dirPath in
  let diff := Git.staged dirPath in
  let commit := Git.commit dirPath message in
  exists created more,
    Git.createGitBackup proc dirPath message calls = (inr created, calls ++ more)
    /\ (more = [] \/ more = [add] \/ more = [add; diff] \/ more = [add; diff; commit])
    /\ (Git.import_fault proc = None -> more <> [])
    /\ (commit ∈ more ->
        exists status, Git.spawn proc (calls ++ [add]) diff = inr status
                       /\ status <> Some 0%Z)
    /\ (created = true
        <-> commit ∈ more
            /\ Git.spawn proc (calls ++ [add; diff]) commit = inr (Some 0%Z)).
Proof.
  cbv zeta.
  unfold Git.createGitBackup, Git.try_catch, Git.bind, Git.importChildProcess,
    Git.spawnSync, Git.ret, Git.stage, Git.staged, Git.commit.
  cbv zeta.
  set (add := {| Git.program := "git"; Git.args := ["add"; "-A"];
                 Git.cwd := dirPath |}).
  set (diff := {| Git.program := "git"; Git.args := ["diff"; "--cached"; "--quiet"];
                  Git.cwd := dirPath |}).
  set (commit := {| Git.program := "git"; Git.args := ["commit"; "-m"; message];
                    Git.cwd := dirPath |}).
  assert (commit ∉ [add; diff]) as Hfresh.
  { intros [Heq|[Heq|Hin%elem_of_nil]%elem_of_cons]%elem_of_cons; done. }
  assert (commit ∉ [add]) as Hfresh1.
  { intros [Heq|Hin%elem_of_nil]%elem_of_cons; done. }
  assert (commit ∈ [add; diff; commit]) as Hin by (do 2 right; by left).
  destruct (Git.import_fault proc) as [err|] eqn:Himport.
  { exists false, []. rewrite app_nil_r.
    split; [done|]. split; [by left|]. split; [done|].
    split; [by intros ?%elem_of_nil|]. split; [done|]. by intros [?%elem_of_nil _]. }
  destruct (Git.spawn proc calls add) as [err|addStatus] eqn:Hadd.
  { exists false, [add].
    split; [done|]. split; [right; by left|]. split; [done|].
    split; [done|]. split; [done|]. by intros [? _]. }
  destruct (Git.spawn proc (calls ++ [add]) diff) as [err|diffStatus] eqn:Hdiff.
  { exists false, [add; diff]. rewrite <- app_assoc.
    split; [done|]. split; [do 2 right; by left|]. split; [done|].
    split; [done|]. split; [done|]. by intros [? _]. }
  case_bool_decide as Hclean.
  { exists false, [add; diff]. rewrite <- app_assoc.
    split; [done|]. split; [do 2 right; by left|]. split; [done|].
    split; [done|]. split; [done|]. by intros [? _]. }
  rewrite <- app_assoc. cbn [app].
  destruct (Git.spawn proc (calls ++ [add; diff]) commit) as [err|commitStatus]
    eqn:Hcommit.
  { exists false, [add; diff; commit]. rewrite <- !app_assoc.
    split; [done|]. split; [by do 3 right|]. split; [done|].
    split; [intros _; by exists diffStatus|]. split; [done|]. by intros [_ ?]. }
  exists (bool_decide (commitStatus = Some 0%Z)), [add; diff; commit].
  rewrite <- !app_assoc.
  split; [done|]. split; [by do 3 right|]. split; [done|].
  split; [intros _; by exists diffStatus|].
  rewrite bool_decide_eq_true. split; [intros ->; by split|].
  intros [_ Heq]. by simplify_eq.
Qed.

Example backup_of_changes :
  Git.createGitBackup Git.dirtyRepo "kit" "chore: backup before upgrade to v2.0.0" []
  = (inr true,
     [Git.stage "kit"; Git.staged "kit";
      Git.commit "kit" "chore: backup before upgrade to v2.0.0"]).
Proof. reflexivity. Qed.

(** ** The engine and its predecessor *)

Section Predecessor.
Variable env : Env.
Variable nt : list string.

Lemma legacy_processFile file old new :
  in_step old new -> file ∉ processedFiles new ->
  exists old' new',
    Legacy.processFile env nt file old = (inr tt, old')
    /\ processFile env "Failed to copy " (replaceAction env) nt file new = (inr tt, new')
    /\ in_step old' new'
    /\ forall g, g ∈ processedFiles new' -> g = file \/ g ∈ processedFiles new.
Proof.
  destruct old as [w r claimedOld], new as [w' r' claimed].
  intros (Hw & Hr & Hm & Ha) Hun. cbn in Hw, Hr, Hm, Ha, Hun. subst w' r'.
  unfold Legacy.processFile, processFile, replaceAction, bind, try_catch,
    processedFiles_has, ensureDir, copy, push_replaced, push_skipped, push_error,
    processedFiles_add. cbn.
  rewrite (bool_decide_eq_false_2 _ Hun). cbn.
  destruct (existsb (matchesPattern env file) nt); cbn.
  { do 2 eexists. split_and!; try done.
    intros g [->%elem_of_singleton|Hg]%elem_of_union; eauto. }
  repeat step_call env; do 2 eexists; (split_and!; try done);
    try (intros g Hg; by right).
  intros g [->%elem_of_singleton|Hg]%elem_of_union; eauto.
Qed.

Lemma legacy_processFiles files old new :
  in_step old new -> NoDup files ->
  (forall f, f ∈ files -> f ∉ processedFiles new) ->
  exists old' new',
    for_of files (Legacy.processFile env nt) old = (inr tt, old')
    /\ for_of files (processFile env "Failed to copy " (replaceAction env) nt) new
       = (inr tt, new')
    /\ in_step old' new'
    /\ forall g, g ∈ processedFiles new' -> g ∈ files \/ g ∈ processedFiles new.
Proof.
  revert old new. induction files as [|file files IH]; intros old new Hstep Hnd Hun.
  - exists old, new. split_and!; try done. intros g Hg. by right.
  - apply NoDup_cons in Hnd as [Hfresh Hnd]. cbn.
    destruct (legacy_processFile file old new Hstep) as (old1 & new1 & R1 & R1' & S1 & C1).
    { apply Hun. by left. }
    destruct (IH old1 new1 S1 Hnd) as (old2 & new2 & R2 & R2' & S2 & C2).
    { intros f Hf Hcl. destruct (C1 f Hcl) as [->|Hold]; [done|].
      apply (Hun f); [by right|done]. }
    exists old2, new2. unfold bind. rewrite R1, R1'. split_and!; try done.
    intros g Hg. destruct (C2 g Hg) as [Hin|Hcl]; [left; by right|].
    destruct (C1 g Hcl) as [->|Hold]; [left; by left|by right].
Qed.

Lemma legacy_processPattern pattern old new :
  let files := match glob env pattern with inr files => files | inl _ => [] end in
  in_step old new -> NoDup files ->
  (forall f, f ∈ files -> f ∉ processedFiles new) ->
  exists old' new',
    Legacy.processPattern env nt pattern old = (inr tt, old')
    /\ processPattern env "Failed to process pattern " "Failed to copy "
         (replaceAction env) nt pattern new = (inr tt, new')
    /\ in_step old' new'
    /\ forall g, g ∈ processedFiles new' -> g ∈ files \/ g ∈ processedFiles new.
Proof.
  unfold Legacy.processPattern, processPattern, try_catch, bind, globFiles.
  destruct (glob env pattern) as [err|files] eqn:Hglob; cbn;
    intros (Hw & Hr & Hm & Ha) Hnd Hun.
  - do 2 eexists. split_and!; try done.
    + unfold in_step. cbn. by rewrite Hw, Hr, Hm, Ha.
    + intros g Hg. by right.
  - match goal with
    | |- context [for_of files (Legacy.processFile env nt) ?o] => set (old0 := o)
    end.
    match goal with
    | |- context [for_of files (processFile _ _ _ _) ?n] => set (new0 := n)
    end.
    destruct (legacy_processFiles files old0 new0) as (old1 & new1 & R1 & R1' & S1 & C1);
      [|done|done|].
    + unfold in_step, old0, new0. cbn. by rewrite Hw, Hr, Hm, Ha.
    + exists old1, new1. by rewrite R1, R1'.
Qed.

Lemma legacy_processPatterns patterns old new :
  in_step old new -> NoDup (expandedFiles env patterns) ->
  (forall f, f ∈ expandedFiles env patterns -> f ∉ processedFiles new) ->
  exists old' new',
    for_of patterns (Legacy.processPattern env nt) old = (inr tt, old')
    /\ processAlwaysReplace env nt patterns new = (inr tt, new')
    /\ in_step old' new'.
Proof.
  unfold processAlwaysReplace, processPatterns.
  revert old new. induction patterns as [|pattern patterns IH];
    intros old new Hstep Hnd Hun.
  - by exists old, new.
  - unfold expandedFiles in Hnd, Hun. cbn [map concat] in Hnd, Hun.
    fold (expandedFiles env patterns) in Hnd, Hun.
    apply NoDup_app in Hnd as (Hnd1 & Hdisjoint & Hnd2).
    destruct (legacy_processPattern pattern old new Hstep Hnd1)
      as (old1 & new1 & R1 & R1' & S1 & C1).
    { intros f Hf. apply Hun, elem_of_app. by left. }
    destruct (IH old1 new1 S1 Hnd2) as (old2 & new2 & R2 & R2' & S2).
    { intros f Hf Hcl. destruct (C1 f Hcl) as [Hin|Hold].
      - by apply (Hdisjoint f).
      - revert Hold. apply Hun, elem_of_app. by right. }
    exists old2, new2. cbn [for_of]. unfold bind. by rewrite R1, R1'.
Qed.

End Predecessor.

(** X18: for a manifest without [mergeIfChanged] and [addOnly] patterns
    whose [alwaysReplace] expansions yield no file twice, the engine does
    what its predecessor did: the same calls, the same destination tree, the
    same replaced, skipped and error lists, and nothing merged or added. *)
Theorem engine_extends_predecessor env versionJson w :
  category mergeIfChanged versionJson = [] ->
  category addOnly versionJson = [] ->
  NoDup (expandedFiles env (category alwaysReplace versionJson)) ->
  exists r w',
    applyFileCategories env versionJson w = (inr r, w')
    /\ Legacy.applyFileCategories env versionJson w
       = (inr {| Legacy.replaced := replaced r; Legacy.skipped := skipped r;
                 Legacy.errors := errors r |}, w')
    /\ merged r = [] /\ added r = [].
Proof.
  intros Hm Ha Hnd.
  destruct (legacy_processPatterns env (category neverTouch versionJson)
              (category alwaysReplace versionJson) (initial w) (initial w))
    as (old' & new' & Rold & Rnew & Hw & Hr & Hmerged & Hadded);
    [done|done|intros f _; apply not_elem_of_empty|].
  exists (result new'), (world new').
  unfold applyFileCategories, categoryLoops, Legacy.applyFileCategories,
    Legacy.categoryLoop, bind.
  rewrite Rold, Rnew, Hm, Ha. cbn. by rewrite Hw, Hr.
Qed.

Lemma engine_extends_predecessor_witness :
  exists r w',
    applyFileCategories kitEnv (manifest ["**"] ["data/**"] [] []) kitWorld = (inr r, w')
    /\ Legacy.applyFileCategories kitEnv (manifest ["**"] ["data/**"] [] []) kitWorld
       = (inr {| Legacy.replaced := replaced r; Legacy.skipped := skipped r;
                 Legacy.errors := errors r |}, w')
    /\ merged r = [] /\ added r = [].
Proof.
  apply engine_extends_predecessor; [reflexivity|reflexivity|].
  apply (bool_decide_unpack _). vm_compute. exact I.
Defined.

(** The condition on the expansions is needed: a file that two patterns
    yield is copied and reported twice by the predecessor, once by the
    engine. *)
Example predecessor_repeats :
  fst (Legacy.applyFileCategories kitEnv (manifest ["README.md"; "**"] ["data/**"] [] [])
         kitWorld)
  = inr {| Legacy.replaced := ["README.md"; "README.md"; "config.json"; "notes.txt"];
           Legacy.skipped := ["data/user.db"]; Legacy.errors := [] |}
  /\ fst (applyFileCategories kitEnv (manifest ["README.md"; "**"] ["data/**"] [] [])
            kitWorld)
     = inr {| replaced := ["README.md"; "config.json"; "notes.txt"]; merged := [];
              added := []; skipped := ["data/user.db"]; errors := [] |}.
Proof. split; vm_compute; reflexivity. Qed.

(** ** Project names *)

Section ProjectNames.
Import Project.

Lemma isLowerAlnum_not_dash c : isLowerAlnum c = true -> Ascii.eqb c dash = false.
Proof.
  intros Hc. apply Ascii.eqb_neq. intros ->. by vm_compute in Hc.
Qed.

Lemma collapseRuns_shape s :
  forall inRun,
    nameChars (collapseRuns inRun s) = true
    /\ doubleDash (collapseRuns inRun s) = false
    /\ (inRun = true -> startsWithDash (collapseRuns inRun s) = false).
Proof.
  induction s as [|c rest IH]; intros inRun; [done|]. cbn [collapseRuns].
  destruct (isLowerAlnum c) eqn:Hc.
  - destruct (IH false) as (H1 & H2 & _). cbn.
    rewrite Hc, H1, H2, (isLowerAlnum_not_dash c Hc). done.
  - destruct (IH true) as (H1 & H2 & H3). destruct inRun; [done|].
    cbn. rewrite H1, H2, (H3 eq_refl). by rewrite orb_true_r.
Qed.

Lemma dropLeadingDash_shape s :
  nameChars s = true -> doubleDash s = false ->
  nameChars (dropLeadingDash s) = true
  /\ doubleDash (dropLeadingDash s) = false
  /\ startsWithDash (dropLeadingDash s) = false.
Proof.
  destruct s as [|c rest]; [done|]. cbn.
  destruct (Ascii.eqb c dash) eqn:Hc; cbn.
  - rewrite orb_true_r. cbn. intros H1 H2.
    apply orb_false_iff in H2 as [H2 H3]. done.
  - rewrite Hc. done.
Qed.

Lemma dropTrailingDash_empty s :
  dropTrailingDash s = "" -> s = "" \/ s = String dash "".
Proof.
  destruct s as [|c [|c' rest]]; cbn; [by left| |done].
  destruct (Ascii.eqb_spec c dash) as [->|Hc]; [by right|done].
Qed.

Lemma dropTrailingDash_chars s :
  nameChars s = true -> nameChars (dropTrailingDash s) = true.
Proof.
  induction s as [|c rest IH]; [done|]. intros Hchars.
  cbn [nameChars] in Hchars. apply andb_true_iff in Hchars as [Hc Hrest].
  destruct rest as [|c' rest'].
  - cbn. destruct (Ascii.eqb c dash) eqn:E; [done|].
    cbn [nameChars]. rewrite E. by rewrite Hc.
  - change (dropTrailingDash (String c (String c' rest')))
      with (String c (dropTrailingDash (String c' rest'))).
    cbn [nameChars]. by rewrite Hc, IH.
Qed.

Lemma dropTrailingDash_start s :
  startsWithDash s = false -> startsWithDash (dropTrailingDash s) = false.
Proof.
  destruct s as [|c [|c' rest]]; cbn; [done| |done].
  intros Hc. by rewrite Hc.
Qed.

Lemma dropTrailingDash_end s :
  doubleDash s = false -> endsWithDash (dropTrailingDash s) = false.
Proof.
  induction s as [|c rest IH]; [done|]. intros Hdouble.
  cbn [doubleDash] in Hdouble. apply orb_false_iff in Hdouble as [Hcc Hdouble].
  destruct rest as [|c' rest'].
  - cbn. destruct (Ascii.eqb c dash) eqn:Hc; [done|]. cbn. exact Hc.
  - change (dropTrailingDash (String c (String c' rest')))
      with (String c (dropTrailingDash (String c' rest'))).
    specialize (IH Hdouble).
    destruct (dropTrailingDash (String c' rest')) as [|d rest2] eqn:Hform.
    + apply dropTrailingDash_empty in Hform as [Hform|Hform]; [done|].
      injection Hform as -> ->. cbn in Hcc |- *.
      by rewrite andb_true_r in Hcc.
    + exact IH.
Qed.

(** X19: whatever the directory is called, the project name that
    [suggestProjectName] proposes is either empty or a name the prompt's
    validation accepts, and it never starts or ends with a dash nor holds
    two dashes in a row; the empty name is the one the validation refuses
    as missing. *)
Theorem suggested_name_is_valid platform dirPath :
  let name := suggestProjectName platform dirPath in
  (name = "" \/ validate name = None)
  /\ startsWithDash name = false
  /\ endsWithDash name = false
  /\ validate "" = Some "Project name is required".
Proof.
  cbv zeta. unfold suggestProjectName.
  set (lower := toLowerCase platform (basename platform dirPath)).
  destruct (collapseRuns_shape lower false) as (H1 & H2 & _).
  destruct (dropLeadingDash_shape _ H1 H2) as (H3 & H4 & H5).
  pose proof (dropTrailingDash_chars _ H3) as H6.
  split_and!; [|by apply dropTrailingDash_start|by apply dropTrailingDash_end|done].
  unfold validate. rewrite H6. cbn.
  destruct (String.eqb_spec (dropTrailingDash (dropLeadingDash (collapseRuns false lower)))
              "") as [Hempty|Hfull]; [by left|by right].
Qed.

Example suggested_name :
  suggestProjectName posix "/home/me/My Cool_App (v2)!" = "my-cool-app-v2"
  /\ suggestProjectName posix "/tmp/___" = "".
Proof. split; reflexivity. Qed.

End ProjectNames.

(** ** The run-level properties at work *)

Lemma copies_hold_source_witness :
  dest_tree (snd (applyFileCategories kitEnv kitManifest kitWorld)) !! "README.md"
  = Some "new readme".
Proof.
  destruct (copies_hold_source kitEnv kitManifest kitWorld) as (r & w' & Hrun & Hcopies).
  rewrite Hrun. cbn [snd]. run_result Hrun r.
  destruct (Hcopies "README.md") as [_ ->]; [left; by_compute|reflexivity].
Defined.

Lemma skipped_files_preserved_witness :
  dest_tree (snd (applyFileCategories kitEnv seedManifest kitWorld)) !! "README.md"
  = Some "old readme".
Proof.
  destruct (skipped_files_preserved kitEnv seedManifest kitWorld)
    as (r & w' & evs & Hrun & _ & _ & Hkept).
  rewrite Hrun. cbn [snd]. run_result Hrun r.
  rewrite (Hkept eq_refl "README.md"); [reflexivity|by_compute].
Defined.


Lemma errorless_run_delivers_witness :
  is_Some (dest_tree (snd (applyFileCategories kitEnv kitManifest kitWorld))
             !! "notes.txt").
Proof.
  destruct (errorless_run_delivers kitEnv kitManifest kitWorld)
    as (r & w' & Hrun & Hheld).
  rewrite Hrun. cbn [snd]. run_result Hrun r.
  apply (Hheld eq_refl "notes.txt"); [by_compute|reflexivity].
Defined.

Lemma alwaysReplace_delivers_witness :
  dest_tree (snd (applyFileCategories kitEnv kitManifest kitWorld)) !! "config.json"
  = Some (render sourceConfig).
Proof.
  destruct (alwaysReplace_delivers kitEnv kitManifest kitWorld)
    as (r & w' & Hrun & Hdelivered).
  rewrite Hrun. cbn [snd]. run_result Hrun r.
  destruct (Hdelivered eq_refl "config.json") as (_ & _ & ->);
    [by_compute|reflexivity|reflexivity].
Defined.

Lemma untouched_outside_expansions_witness :
  dest_tree (snd (applyFileCategories kitEnv starterManifest kitWorld)) !! "data/user.db"
  = Some "precious".
Proof.
  destruct (untouched_outside_expansions kitEnv starterManifest kitWorld)
    as (r & w' & evs & Hrun & _ & _ & Houtside).
  rewrite Hrun. cbn [snd].
  destruct (Houtside "data/user.db") as (-> & _); [by_compute|reflexivity].
Defined.


(** ** A second merge *)




(** ** Nothing is deleted *)

(** X21: a run deletes nothing: a file the destination held when the run
    began is still there when it ends, with whatever content, unless a
    file-system call on this very file failed during the run; after a run
    without errors every file of the destination is still there. *)
Theorem nothing_deleted env versionJson w :
  exists r w' evs,
    applyFileCategories env versionJson w = (inr r, w')
    /\ io_log w' = io_log w ++ evs
    /\ (forall f, quiet f evs -> is_Some (dest_tree w !! f) ->
                  is_Some (dest_tree w' !! f))
    /\ (errors r = [] ->
        forall f, is_Some (dest_tree w !! f) -> is_Some (dest_tree w' !! f)).
Proof.
  destruct (run_loops env versionJson w) as (_ & _ & _ & Hrun).
  destruct (run_faithful env versionJson w) as (_ & evs & Hlog & Hg).
  assert (forall f, quiet f evs -> is_Some (dest_tree w !! f) ->
                    is_Some (dest_tree (world (afterAddOnly env versionJson w)) !! f))
    as Hkept.
  { intros f Hquiet Hheld. destruct (Hg f) as [Hlisted Hfree].
    destruct (decide (f ∈ processedFiles (afterAddOnly env versionJson w)))
      as [Hcl|Hun]; [|by rewrite Hfree].
    apply (balanced_claimed _ _ (run_balanced env versionJson w)) in Hcl.
    apply listed_recorded in Hcl as [s Hs].
    destruct (Hlisted s Hs) as [_ Hst]. destruct s; cbn in Hst.
    - destruct Hst as [Hsome ->]. done.
    - destruct Hst as (cs & cd & incoming & existing & _ & _ & _ & _ & -> & _). done.
    - destruct Hst as (Hsome & -> & _). done.
    - destruct Hst as [_ Hsame]. by rewrite Hsame. }
  do 2 eexists. exists evs. split_and!; [exact Hrun|exact Hlog|exact Hkept|].
  intros Hnone f. apply Hkept. by eapply run_quiet.
Qed.

Lemma nothing_deleted_witness :
  is_Some (dest_tree (snd (applyFileCategories kitEnv kitManifest kitWorld))
             !! "data/user.db").
Proof.
  destruct (nothing_deleted kitEnv kitManifest kitWorld)
    as (r & w' & evs & Hrun & _ & _ & Hkept).
  rewrite Hrun. cbn [snd]. run_result Hrun r.
  apply (Hkept eq_refl "data/user.db"). by_compute.
Defined.
